(** * gpytorch/constraints/constraints.py: Interval, GreaterThan, Positive, LessThan

    A shallow embedding of the constraint classes of
    [gpytorch/constraints/constraints.py] and the properties of their
    methods.

    Modelling choices.
    - A torch scalar is an extended real [xreal]: a real number, one of the
      two infinities, or NaN.  Finite arithmetic is exact real arithmetic
      (rounding, overflow and signed zeros of IEEE floats are not modelled;
      of underflow, that of [softplus] is, for binary32, the default type of
      a torch tensor); the special values follow the IEEE rules torch
      implements.
    - A tensor value is the list of its elements; a 0-dim tensor is a
      one-element list.  Binary operations broadcast a one-element operand
      and raise torch's size-mismatch [RuntimeError] otherwise.
    - Tensors are objects of a store: a tensor variable of the program is a
      location, [x[mask] = v] writes in place, and every tensor-producing
      operation allocates.  An exception leaves the store as it was when the
      exception was raised.
    - A Python function object is a value of [pyfunc], compared by identity.
    - A constraint object has an identity [oid] (what [id(self)] would be)
      and its attributes; an attribute that was never assigned is [None] in
      [_inv_transform] (reading it raises [AttributeError]). *)

From Stdlib Require Import Reals Lra Lia List String Bool.
From stdpp Require Import base list.
Import ListNotations.

Open Scope R_scope.

(** ** Scalars *)

Inductive xreal : Type :=
| NaN
| NInf
| Fin (r : R)
| PInf.

Definition Rlt_b (a b : R) : bool := if Rlt_dec a b then true else false.
Definition Rle_b (a b : R) : bool := if Rle_dec a b then true else false.
Definition Req_b (a b : R) : bool := if Req_dec_T a b then true else false.

Definition sgn_inf (positive : bool) : xreal := if positive then PInf else NInf.

Definition xneg (a : xreal) : xreal :=
  match a with
  | NaN => NaN
  | NInf => PInf
  | Fin r => Fin (- r)
  | PInf => NInf
  end.

Definition xadd (a b : xreal) : xreal :=
  match a, b with
  | NaN, _ | _, NaN => NaN
  | PInf, NInf | NInf, PInf => NaN
  | PInf, _ | _, PInf => PInf
  | NInf, _ | _, NInf => NInf
  | Fin x, Fin y => Fin (x + y)
  end.

Definition xsub (a b : xreal) : xreal := xadd a (xneg b).

Definition xmul (a b : xreal) : xreal :=
  match a, b with
  | NaN, _ | _, NaN => NaN
  | Fin x, Fin y => Fin (x * y)
  | Fin x, PInf | PInf, Fin x => if Req_b x 0 then NaN else sgn_inf (Rlt_b 0 x)
  | Fin x, NInf | NInf, Fin x => if Req_b x 0 then NaN else sgn_inf (Rlt_b x 0)
  | PInf, PInf | NInf, NInf => PInf
  | PInf, NInf | NInf, PInf => NInf
  end.

(** Division; a zero divisor is taken as [+0]. *)
Definition xdiv (a b : xreal) : xreal :=
  match a, b with
  | NaN, _ | _, NaN => NaN
  | Fin x, Fin y =>
      if Req_b y 0
      then (if Req_b x 0 then NaN else sgn_inf (Rlt_b 0 x))
      else Fin (x / y)
  | Fin _, PInf | Fin _, NInf => Fin 0
  | PInf, Fin y => sgn_inf (Rle_b 0 y)
  | NInf, Fin y => sgn_inf (Rlt_b y 0)
  | PInf, PInf | PInf, NInf | NInf, PInf | NInf, NInf => NaN
  end.

(** Comparisons: every comparison with NaN is false. *)
Definition xeqb (a b : xreal) : bool :=
  match a, b with
  | NInf, NInf | PInf, PInf => true
  | Fin x, Fin y => Req_b x y
  | _, _ => false
  end.

Definition xltb (a b : xreal) : bool :=
  match a, b with
  | NaN, _ | _, NaN => false
  | NInf, NInf => false
  | NInf, _ => true
  | _, NInf => false
  | PInf, _ => false
  | Fin _, PInf => true
  | Fin x, Fin y => Rlt_b x y
  end.

Definition xleb (a b : xreal) : bool :=
  match a, b with
  | NaN, _ | _, NaN => false
  | NInf, _ => true
  | _, PInf => true
  | _, NInf => false
  | PInf, _ => false
  | Fin x, Fin y => Rle_b x y
  end.

Definition xgtb (a b : xreal) : bool := xltb b a.
Definition xgeb (a b : xreal) : bool := xleb b a.

(** [torch.max] / [torch.min] of two elements; NaN propagates. *)
Definition xmax (a b : xreal) : xreal :=
  match a, b with
  | NaN, _ | _, NaN => NaN
  | _, _ => if xleb a b then b else a
  end.

Definition xmin (a b : xreal) : xreal :=
  match a, b with
  | NaN, _ | _, NaN => NaN
  | _, _ => if xleb a b then a else b
  end.

(** ** Elementwise functions of the tensor library *)

Definition xsigmoid (a : xreal) : xreal :=
  match a with
  | NaN => NaN
  | NInf => Fin 0
  | Fin r => Fin (/ (1 + exp (- r)))
  | PInf => Fin 1
  end.

(** [torch.nn.functional.softplus] with its defaults [beta = 1],
    [threshold = 20]: linear above the threshold, [log1p(exp(x))] up to it.
    In binary32 the smallest positive number is [2^-149]: [exp(x)] is
    rounded to 0 when it is at most half of it, and [log1p(0)] is 0, so
    that the result underflows to exactly 0.  No other rounding is
    modelled. *)
Definition softplus_threshold : R := 20.

Definition underflow_bound : R := / 2 ^ 150.

Definition xsoftplus (a : xreal) : xreal :=
  match a with
  | NaN => NaN
  | NInf => Fin 0
  | Fin r =>
      Fin (if Rlt_b softplus_threshold r then r
           else if Rle_b (exp r) underflow_bound then 0
           else ln (1 + exp r))
  | PInf => PInf
  end.

Definition xexp (a : xreal) : xreal :=
  match a with
  | NaN => NaN
  | NInf => Fin 0
  | Fin r => Fin (exp r)
  | PInf => PInf
  end.

Definition xlog (a : xreal) : xreal :=
  match a with
  | NaN | NInf => NaN
  | Fin r => if Rlt_b r 0 then NaN else if Req_b r 0 then NInf else Fin (ln r)
  | PInf => PInf
  end.

(** Modelled from the spec: [inv_sigmoid] and [inv_softplus] of
    [gpytorch/utils/transforms.py], the numeric inverses of sigmoid and of
    softplus. *)
Definition xinv_sigmoid (a : xreal) : xreal := xsub (xlog a) (xlog (xsub (Fin 1) a)).
Definition xinv_softplus (a : xreal) : xreal := xlog (xsub (xexp a) (Fin 1)).

(** ** Function objects *)

Inductive pyfunc : Type :=
| sigmoid
| softplus
| torch_exp
| inv_sigmoid
| inv_softplus
| torch_log
| user_fn (id : nat) (f : xreal -> xreal).

(** [f == g] on function objects is identity. *)
Definition pyfunc_eqb (f g : pyfunc) : bool :=
  match f, g with
  | sigmoid, sigmoid | softplus, softplus | torch_exp, torch_exp
  | inv_sigmoid, inv_sigmoid | inv_softplus, inv_softplus
  | torch_log, torch_log => true
  | user_fn i _, user_fn j _ => Nat.eqb i j
  | _, _ => false
  end.

(** Equality of two values each of which is a function object or [None]. *)
Definition py_eqb (f g : option pyfunc) : bool :=
  match f, g with
  | None, None => true
  | Some f', Some g' => pyfunc_eqb f' g'
  | _, _ => false
  end.

Definition apply_elem (f : pyfunc) : xreal -> xreal :=
  match f with
  | sigmoid => xsigmoid
  | softplus => xsoftplus
  | torch_exp => xexp
  | inv_sigmoid => xinv_sigmoid
  | inv_softplus => xinv_softplus
  | torch_log => xlog
  | user_fn _ g => g
  end.

(** ** Tensor values *)

Abbreviation tensor := (list xreal) (only parsing).

Inductive exn : Type :=
| RuntimeError (msg : string)
| AttributeError (attr : string)
| TypeError (msg : string)
| RecursionError
| InvalidReference.

Inductive outcome (A : Type) : Type :=
| Ok (a : A)
| Raise (e : exn).
Arguments Ok {A} a.
Arguments Raise {A} e.

Definition size_mismatch : string :=
  "The size of tensor a must match the size of tensor b"%string.

(** Elementwise binary operation with broadcasting of a one-element operand. *)
Definition broadcast {A : Type} (f : xreal -> xreal -> A) (a b : tensor)
  : outcome (list A) :=
  match a, b with
  | [x], _ => Ok (map (f x) b)
  | _, [y] => Ok (map (fun x => f x y) a)
  | _, _ =>
      if Nat.eqb (length a) (length b)
      then Ok (zip_with f a b)
      else Raise (RuntimeError size_mismatch)
  end.

Definition torch_any (m : list bool) : bool := existsb (fun b => b) m.
Definition torch_all (m : list bool) : bool := forallb (fun b => b) m.

(** [x[x == v] = w] on a tensor value. *)
Definition masked_assign (v w : xreal) (x : tensor) : tensor :=
  map (fun e => if xeqb e v then w else e) x.

(** ** The store and the monad of the program *)

Abbreviation loc := nat (only parsing).

Record heap : Type := mkHeap {
  cells : list tensor;   (* the tensor objects, by address *)
  next_id : nat          (* next fresh object identity *)
}.

Definition empty_heap : heap := mkHeap [] 0.

Definition M (A : Type) : Type := heap -> outcome A * heap.

Definition ret {A : Type} (a : A) : M A := fun h => (Ok a, h).

Definition raise {A : Type} (e : exn) : M A := fun h => (Raise e, h).

Definition bind {A B : Type} (c : M A) (k : A -> M B) : M B :=
  fun h =>
    match c h with
    | (Ok a, h') => k a h'
    | (Raise e, h') => (Raise e, h')
    end.

Notation "x <- c ;; k" := (bind c (fun x => k))
  (at level 100, c at next level, right associativity).
Notation "c ;;; k" := (bind c (fun _ => k))
  (at level 100, right associativity).

Definition lift {A : Type} (o : outcome A) : M A := fun h => (o, h).

(** The store with a new tensor object holding [v] at the next address. *)
Definition push (v : tensor) (h : heap) : heap :=
  mkHeap (cells h ++ [v]) (next_id h).

(** The store with the tensor object at [l] overwritten by [v]. *)
Definition store (l : loc) (v : tensor) (h : heap) : heap :=
  mkHeap (<[l := v]> (cells h)) (next_id h).

Definition alloc (v : tensor) : M loc :=
  fun h => (Ok (length (cells h)), push v h).

Definition read (l : loc) : M tensor :=
  fun h =>
    match cells h !! l with
    | Some v => (Ok v, h)
    | None => (Raise InvalidReference, h)
    end.

(** In-place update of the tensor object at [l]. *)
Definition write (l : loc) (v : tensor) : M unit :=
  fun h =>
    match cells h !! l with
    | Some _ => (Ok tt, store l v h)
    | None => (Raise InvalidReference, h)
    end.

Definition new_object : M nat :=
  fun h => (Ok (next_id h), mkHeap (cells h) (S (next_id h))).

(** *** Tensor operations on the store *)

(** [torch.tensor(x)] for a Python float [x]. *)
Definition torch_tensor (x : xreal) : M loc := alloc [x].

(** [t.clone()]. *)
Definition clone (t : loc) : M loc := v <- read t ;; alloc v.

(** [t[t == v] = w]. *)
Definition setitem_eq (t : loc) (v w : xreal) : M unit :=
  x <- read t ;; write t (masked_assign v w x).

Definition binop (f : xreal -> xreal -> xreal) (a b : loc) : M loc :=
  x <- read a ;; y <- read b ;; r <- lift (broadcast f x y) ;; alloc r.

Definition t_add : loc -> loc -> M loc := binop xadd.
Definition t_sub : loc -> loc -> M loc := binop xsub.
Definition t_mul : loc -> loc -> M loc := binop xmul.
Definition t_div : loc -> loc -> M loc := binop xdiv.
Definition torch_max : loc -> loc -> M loc := binop xmax.
Definition torch_min : loc -> loc -> M loc := binop xmin.

Definition t_neg (a : loc) : M loc := x <- read a ;; alloc (map xneg x).

(** Comparison of a tensor with a Python float: the mask. *)
Definition cmp_scalar (f : xreal -> xreal -> bool) (a : loc) (s : xreal)
  : M (list bool) :=
  x <- read a ;; ret (map (fun e => f e s) x).

(** Comparison of two tensors: the mask. *)
Definition cmp (f : xreal -> xreal -> bool) (a b : loc) : M (list bool) :=
  x <- read a ;; y <- read b ;; lift (broadcast f x y).

(** Calling a function object on a tensor. *)
Definition call (f : pyfunc) (t : loc) : M loc :=
  x <- read t ;; alloc (map (apply_elem f) x).

(** ** The constraint classes *)

Inductive cls : Type := Interval | GreaterThan | Positive | LessThan.

Record constraint : Type := mkConstraint {
  oid : nat;
  klass : cls;
  lower_bound : loc;
  upper_bound : loc;
  _transform : option pyfunc;       (* [None] is Python's None *)
  _inv_transform : option pyfunc    (* [None]: the attribute does not exist *)
}.

(** An argument that is a Python float or a tensor. *)
Inductive bound_arg : Type :=
| PyFloat (x : xreal)
| PyTensor (t : loc).

(** [if not torch.is_tensor(b): b = torch.tensor(b)]. *)
Definition as_tensor (b : bound_arg) : M loc :=
  match b with
  | PyFloat x => torch_tensor x
  | PyTensor t => ret t
  end.

Definition double_sided_msg : string :=
  "Cannot enforce a double sided bound with a non-sigmoid transform!"%string.
Definition conflicting_msg : string :=
  "Cant intersect Interval constraints with conflicting transforms!"%string.
Definition unknown_inverse_msg : string :=
  "Must specify inv_param_transform for custom param_transforms"%string.

(** The error the specification calls IncompatibleConstraintError. *)
Definition IncompatibleConstraintError (e : exn) : Prop :=
  e = RuntimeError double_sided_msg \/ e = RuntimeError conflicting_msg.

(** Modelled from the spec: [_get_inv_param_transform] of
    [gpytorch/utils/transforms.py], the lookup of a transform in the static
    transform-to-inverse registry, failing for an unregistered transform. *)
Definition _get_inv_param_transform (f : pyfunc) : M pyfunc :=
  match f with
  | sigmoid => ret inv_sigmoid
  | softplus => ret inv_softplus
  | torch_exp => ret torch_log
  | _ => raise (RuntimeError unknown_inverse_msg)
  end.

(** [Interval.__init__], run on a new object of class [k] (the subclasses
    call it through [super().__init__]). *)
Definition Interval_init (k : cls) (lower upper : bound_arg)
    (transform inv_transform : option pyfunc) : M constraint :=
  self <- new_object ;;
  lb <- as_tensor lower ;;
  ub <- as_tensor upper ;;
  m_u <- cmp_scalar xltb ub PInf ;;
  double_sided <-
    (if torch_any m_u
     then m_l <- cmp_scalar xgtb lb NInf ;;
          ret (torch_any m_l && negb (py_eqb transform (Some sigmoid)))
     else ret false) ;;
  if (double_sided : bool)
  then raise (RuntimeError double_sided_msg)
  else
    match transform, inv_transform with
    | Some f, None =>
        g <- _get_inv_param_transform f ;;
        ret (mkConstraint self k lb ub transform (Some g))
    | _, _ => ret (mkConstraint self k lb ub transform None)
    end.

Definition GreaterThan_init (k : cls) (lower : bound_arg)
    (transform inv_transform : option pyfunc) : M constraint :=
  Interval_init k lower (PyFloat PInf) transform inv_transform.

Definition Positive_init (transform inv_transform : option pyfunc)
  : M constraint :=
  GreaterThan_init Positive (PyFloat (Fin 0)) transform inv_transform.

Definition LessThan_init (upper : bound_arg)
    (transform inv_transform : option pyfunc) : M constraint :=
  Interval_init LessThan (PyFloat NInf) upper transform inv_transform.

(** The constructor calls with the default arguments of the source. *)
Definition new_Interval (lower upper : bound_arg) : M constraint :=
  Interval_init Interval lower upper (Some sigmoid) (Some inv_sigmoid).
Definition new_GreaterThan (lower : bound_arg) : M constraint :=
  GreaterThan_init GreaterThan lower (Some softplus) (Some inv_softplus).
Definition new_Positive : M constraint :=
  Positive_init (Some softplus) (Some inv_softplus).
Definition new_LessThan (upper : bound_arg) : M constraint :=
  LessThan_init upper (Some softplus) (Some inv_softplus).

(** [enforced]. *)
Definition enforced (self : constraint) : bool :=
  match _transform self with
  | Some _ => true
  | None => false
  end.

(** [check]: Python's [and] evaluates its second operand only when the first
    is true. *)
Definition check (self : constraint) (t : loc) : M bool :=
  m1 <- cmp xleb t (upper_bound self) ;;
  if torch_all m1
  then m2 <- cmp xgeb t (lower_bound self) ;; ret (torch_all m2)
  else ret false.

(** Calling a value that is a function object or [None]. *)
Definition py_call (f : option pyfunc) (t : loc) : M loc :=
  match f with
  | Some g => call g t
  | None => raise (TypeError "'NoneType' object is not callable"%string)
  end.

(** Reading [self._inv_transform]. *)
Definition getattr_inv_transform (self : constraint) : M pyfunc :=
  match _inv_transform self with
  | Some g => ret g
  | None => raise (AttributeError "_inv_transform"%string)
  end.

(** [Interval.transform]. *)
Definition Interval_transform (self : constraint) (t : loc) : M loc :=
  if negb (enforced self) then ret t
  else
    transformed_tensor <- py_call (_transform self) t ;;
    ub <- clone (upper_bound self) ;;
    setitem_eq ub PInf (Fin 1) ;;;
    lb <- clone (lower_bound self) ;;
    setitem_eq lb NInf (Fin 0) ;;;
    transformed_tensor <- t_mul transformed_tensor ub ;;
    transformed_tensor <- t_add transformed_tensor lb ;;
    ret transformed_tensor.

(** [Interval.inverse_transform]: [upper_bound = self.upper_bound] binds
    the local name to the stored tensor itself, so the two item assignments
    write into the stored tensors. *)
Definition Interval_inverse_transform (self : constraint) (t : loc) : M loc :=
  if negb (enforced self) then ret t
  else
    let ub := upper_bound self in
    setitem_eq ub PInf (Fin 1) ;;;
    let lb := lower_bound self in
    setitem_eq lb NInf (Fin 0) ;;;
    tensor <- t_sub t (lower_bound self) ;;
    tensor <- t_div tensor (upper_bound self) ;;
    g <- getattr_inv_transform self ;;
    tensor <- call g tensor ;;
    ret tensor.

(** [LessThan.transform].  The name [self.transform] is looked up on the
    object and finds the method of its class, passed here as [transform]. *)
Definition LessThan_transform (transform : constraint -> loc -> M loc)
    (self : constraint) (t : loc) : M loc :=
  if negb (enforced self) then ret t
  else
    nt <- t_neg t ;;
    r <- transform self nt ;;
    transformed_tensor <- t_neg r ;;
    transformed_tensor <- t_add transformed_tensor (upper_bound self) ;;
    ret transformed_tensor.

(** [LessThan.inverse_transform]. *)
Definition LessThan_inverse_transform (self : constraint) (t : loc) : M loc :=
  if negb (enforced self) then ret t
  else
    tensor <- t_sub t (upper_bound self) ;;
    g <- getattr_inv_transform self ;;
    nt <- t_neg tensor ;;
    r <- call g nt ;;
    tensor <- t_neg r ;;
    ret tensor.

(** Method call [self.transform(t)] with [depth] frames left on the
    interpreter stack: the method of the object's class runs. *)
Fixpoint transform (depth : nat) (self : constraint) (t : loc) : M loc :=
  match depth with
  | O => raise RecursionError
  | S d =>
      match klass self with
      | LessThan => LessThan_transform (transform d) self t
      | _ => Interval_transform self t
      end
  end.

(** Method call [self.inverse_transform(t)]. *)
Definition inverse_transform (self : constraint) (t : loc) : M loc :=
  match klass self with
  | LessThan => LessThan_inverse_transform self t
  | _ => Interval_inverse_transform self t
  end.

(** The value of the expression [self.transform]: the method of the
    object's class bound to the object. *)
Inductive method_func : Type := Interval_transform_func | LessThan_transform_func.

Definition bound_method : Type := (method_func * nat)%type.

Definition getattr_transform (self : constraint) : bound_method :=
  (match klass self with
   | LessThan => LessThan_transform_func
   | _ => Interval_transform_func
   end, oid self).

Definition method_func_eqb (f g : method_func) : bool :=
  match f, g with
  | Interval_transform_func, Interval_transform_func
  | LessThan_transform_func, LessThan_transform_func => true
  | _, _ => false
  end.

(** Two bound methods are equal when they bind the same function to the
    same object. *)
Definition bound_method_eqb (m1 m2 : bound_method) : bool :=
  method_func_eqb (fst m1) (fst m2) && Nat.eqb (snd m1) (snd m2).

(** [intersect]. *)
Definition intersect (self other : constraint) : M constraint :=
  if negb (bound_method_eqb (getattr_transform self) (getattr_transform other))
  then raise (RuntimeError conflicting_msg)
  else
    lb <- torch_max (lower_bound self) (lower_bound other) ;;
    ub <- torch_min (upper_bound self) (upper_bound other) ;;
    new_Interval (PyTensor lb) (PyTensor ub).

(** [__iter__]: the values yielded, in order. *)
Definition iter (self : constraint) : list loc :=
  [lower_bound self; upper_bound self].

(** ** Vocabulary of the statements *)

(** Every tensor of [h] is a tensor of [h'] with the same content. *)
Definition frame (h h' : heap) : Prop :=
  forall l v, cells h !! l = Some v -> cells h' !! l = Some v.

(** The tensor value an argument denotes in a store. *)
Definition arg_value (h : heap) (b : bound_arg) (v : tensor) : Prop :=
  match b with
  | PyFloat x => v = [x]
  | PyTensor t => cells h !! t = Some v
  end.

Definition is_finite (a : xreal) : Prop :=
  match a with
  | Fin _ => True
  | _ => False
  end.

(** The guard of [Interval.__init__] on the values of the two bounds. *)
Definition double_sided (lv uv : tensor) (transform : option pyfunc) : bool :=
  torch_any (map (fun e => xltb e PInf) uv)
  && (torch_any (map (fun e => xgtb e NInf) lv)
      && negb (py_eqb transform (Some sigmoid))).

(** The order of the extended reals, as the comparisons of the tensor
    library decide it: nothing is related to NaN. *)
Definition xle (a b : xreal) : Prop :=
  match a, b with
  | NaN, _ | _, NaN => False
  | NInf, _ => True
  | _, PInf => True
  | _, NInf => False
  | PInf, _ => False
  | Fin x, Fin y => x <= y
  end.

(** Shapes that broadcast. *)
Definition compatible (a b : tensor) : bool :=
  match a, b with
  | [_], _ => true
  | _, [_] => true
  | _, _ => Nat.eqb (length a) (length b)
  end.

(** The pairs of corresponding elements of two tensors under broadcasting. *)
Definition pairs (a b : tensor) : list (xreal * xreal) :=
  match a, b with
  | [x], _ => map (pair x) b
  | _, [y] => map (fun x => (x, y)) a
  | _, _ => zip a b
  end.

(** The round trip [c.inverse_transform(c.transform(torch.tensor(r)))] on a
    freshly constructed constraint [c]. *)
Definition round_trip (depth : nat) (new : M constraint) (r : xreal) : M loc :=
  c <- new ;;
  raw <- torch_tensor r ;;
  y <- transform depth c raw ;;
  inverse_transform c y.

(** The bounds as [Interval.transform] adjusts them on its clones: an upper
    bound [+inf] becomes 1, a lower bound [-inf] becomes 0. *)
Definition adjusted_upper (uv : tensor) : tensor := masked_assign PInf (Fin 1) uv.
Definition adjusted_lower (lv : tensor) : tensor := masked_assign NInf (Fin 0) lv.

(** The value [inv(((t - lower) / upper))] for given bound values. *)
Definition inverse_affine (g : pyfunc) (tv lv uv : tensor) : outcome tensor :=
  match broadcast xsub tv lv with
  | Raise e => Raise e
  | Ok d =>
      match broadcast xdiv d uv with
      | Raise e => Raise e
      | Ok q => Ok (map (apply_elem g) q)
      end
  end.

(** The specification's reading of [Interval.inverse_transform]: the affine
    inversion is done with the bounds as they are stored when the method is
    called, infinities included. *)
Definition inverse_transform_unadjusted_spec (g : pyfunc) (tv lv uv : tensor)
  : outcome tensor :=
  inverse_affine g tv lv uv.

(** * Properties *)

(** ** Real comparisons *)

Lemma Rlt_b_true a b : Rlt_b a b = true <-> a < b.
Proof. unfold Rlt_b. destruct (Rlt_dec a b); split; intros; try easy. Qed.

Lemma Rle_b_true a b : Rle_b a b = true <-> a <= b.
Proof. unfold Rle_b. destruct (Rle_dec a b); split; intros; try easy. Qed.

Lemma Req_b_true a b : Req_b a b = true <-> a = b.
Proof. unfold Req_b. destruct (Req_dec_T a b); split; intros; try easy. Qed.

Lemma Rlt_b_false a b : Rlt_b a b = false <-> ~ a < b.
Proof. rewrite <- Rlt_b_true. destruct (Rlt_b a b); split; congruence. Qed.

Lemma Rle_b_false a b : Rle_b a b = false <-> ~ a <= b.
Proof. rewrite <- Rle_b_true. destruct (Rle_b a b); split; congruence. Qed.

Lemma Req_b_false a b : Req_b a b = false <-> a <> b.
Proof. rewrite <- Req_b_true. destruct (Req_b a b); split; congruence. Qed.

Lemma Rle_b_refl a : Rle_b a a = true.
Proof. apply Rle_b_true. lra. Qed.

Lemma Req_b_refl a : Req_b a a = true.
Proof. now apply Req_b_true. Qed.

(** ** The store *)

Lemma lookup_push_old h w l v :
  cells h !! l = Some v -> cells (push w h) !! l = Some v.
Proof. intros H. simpl. now apply lookup_app_l_Some. Qed.

Lemma lookup_push_new h w : cells (push w h) !! length (cells h) = Some w.
Proof. simpl. now apply list_lookup_middle. Qed.


Lemma lookup_store_eq h l v0 v :
  cells h !! l = Some v0 -> cells (store l v h) !! l = Some v.
Proof.
  intros H. simpl. apply list_lookup_insert_eq. now apply lookup_lt_Some in H.
Qed.

Lemma lookup_store_ne h l l' v :
  l <> l' -> cells (store l v h) !! l' = cells h !! l'.
Proof. intros H. simpl. now apply list_lookup_insert_ne. Qed.

Lemma lookup_store_old h l l' v v' :
  l <> l' -> cells h !! l' = Some v' -> cells (store l v h) !! l' = Some v'.
Proof. intros H H'. now rewrite lookup_store_ne. Qed.

Lemma lookup_fresh_ne h l v : cells h !! l = Some v -> length (cells h) <> l.
Proof. intros H. apply lookup_lt_Some in H. lia. Qed.



Create HintDb heap.
#[local] Hint Resolve lookup_push_old lookup_push_new lookup_store_eq
  lookup_store_old lookup_fresh_ne : heap.

(** ** Running the primitives *)

Section Run.
Context {A B : Type}.

Lemma run_bind_ok (c : M A) (k : A -> M B) h a h' :
  c h = (Ok a, h') -> bind c k h = k a h'.
Proof. intros H. unfold bind. now rewrite H. Qed.

Lemma run_bind_raise (c : M A) (k : A -> M B) h e h' :
  c h = (Raise e, h') -> bind c k h = (Raise e, h').
Proof. intros H. unfold bind. now rewrite H. Qed.
End Run.

(** One step of a run: the first command of a sequence returns, by [H]. *)
Tactic Notation "step" uconstr(H) := rewrite (run_bind_ok _ _ _ _ _ H).

Lemma run_read l v h : cells h !! l = Some v -> read l h = (Ok v, h).
Proof. intros H. unfold read. now rewrite H. Qed.

Lemma run_write l v0 v h :
  cells h !! l = Some v0 -> write l v h = (Ok tt, store l v h).
Proof. intros H. unfold write. now rewrite H. Qed.

Lemma run_clone t v h :
  cells h !! t = Some v -> clone t h = (Ok (length (cells h)), push v h).
Proof. intros H. unfold clone. now step ((run_read _ _ _ H)). Qed.

Lemma run_setitem_eq t x v w h :
  cells h !! t = Some x ->
  setitem_eq t v w h = (Ok tt, store t (masked_assign v w x) h).
Proof.
  intros H. unfold setitem_eq.
  step ((run_read _ _ _ H)).
  now apply run_write with x.
Qed.

Lemma run_binop f a b x y r h :
  cells h !! a = Some x -> cells h !! b = Some y -> broadcast f x y = Ok r ->
  binop f a b h = (Ok (length (cells h)), push r h).
Proof.
  intros Ha Hb Hr. unfold binop.
  step ((run_read _ _ _ Ha)).
  step ((run_read _ _ _ Hb)).
  unfold bind, lift. now rewrite Hr.
Qed.


Lemma run_t_neg a x h :
  cells h !! a = Some x ->
  t_neg a h = (Ok (length (cells h)), push (map xneg x) h).
Proof. intros H. unfold t_neg. now step ((run_read _ _ _ H)). Qed.

Lemma run_cmp_scalar f a s x h :
  cells h !! a = Some x ->
  cmp_scalar f a s h = (Ok (map (fun e => f e s) x), h).
Proof. intros H. unfold cmp_scalar. now step ((run_read _ _ _ H)). Qed.

Lemma run_cmp f a b x y h :
  cells h !! a = Some x -> cells h !! b = Some y ->
  cmp f a b h = (broadcast f x y, h).
Proof.
  intros Ha Hb. unfold cmp.
  step ((run_read _ _ _ Ha)).
  now step ((run_read _ _ _ Hb)).
Qed.

Lemma run_call f t x h :
  cells h !! t = Some x ->
  call f t h = (Ok (length (cells h)), push (map (apply_elem f) x) h).
Proof. intros H. unfold call. now step ((run_read _ _ _ H)). Qed.

Section Inversion.
Context {A B : Type}.

Lemma bind_inv_ok (c : M A) (k : A -> M B) h b h' :
  bind c k h = (Ok b, h') ->
  exists a h1, c h = (Ok a, h1) /\ k a h1 = (Ok b, h').
Proof.
  unfold bind. destruct (c h) as [[a|e] h1]; intros H.
  - now exists a, h1.
  - discriminate.
Qed.
End Inversion.

(** ** The constructor *)

Lemma frame_refl h : frame h h.
Proof. now intros l v. Qed.

Lemma frame_trans h1 h2 h3 : frame h1 h2 -> frame h2 h3 -> frame h1 h3.
Proof. intros H1 H2 l v H. auto. Qed.

Lemma frame_push h w : frame h (push w h).
Proof. intros l v H. auto with heap. Qed.

Lemma arg_value_frame h h' b v : frame h h' -> arg_value h b v -> arg_value h' b v.
Proof. destruct b; simpl; auto. Qed.

Lemma run_as_tensor b v h :
  arg_value h b v ->
  exists l h', as_tensor b h = (Ok l, h') /\ cells h' !! l = Some v
               /\ frame h h' /\ next_id h' = next_id h.
Proof.
  destruct b as [x|t]; simpl; intros H.
  - subst v. exists (length (cells h)), (push [x] h).
    repeat split; auto using frame_push with heap.
  - exists t, h. repeat split; auto using frame_refl.
Qed.

Lemma py_eqb_sigmoid tr : py_eqb tr (Some sigmoid) = true <-> tr = Some sigmoid.
Proof.
  destruct tr as [[]|]; simpl; split; intros H; try easy.
Qed.

(** What [Interval.__init__] does, given the values of its two bounds. *)
Lemma run_Interval_init h k lower upper tr inv lv uv :
  arg_value h lower lv -> arg_value h upper uv ->
  exists lb ub h',
    cells h' !! lb = Some lv /\ cells h' !! ub = Some uv
    /\ frame h h' /\ next_id h' = S (next_id h)
    /\ Interval_init k lower upper tr inv h =
       if double_sided lv uv tr
       then (Raise (RuntimeError double_sided_msg), h')
       else match tr, inv with
            | Some f, None =>
                bind (_get_inv_param_transform f)
                  (fun g => ret (mkConstraint (next_id h) k lb ub tr (Some g))) h'
            | _, _ => (Ok (mkConstraint (next_id h) k lb ub tr None), h')
            end.
Proof.
  intros Hl Hu. unfold Interval_init.
  set (h0 := mkHeap (cells h) (S (next_id h))).
  assert (E0 : new_object h = (Ok (next_id h), h0)) by reflexivity.
  step E0.
  destruct (run_as_tensor lower lv h0 Hl) as (lb & h1 & E1 & L1 & F1 & N1).
  step E1.
  assert (Hu1 : arg_value h1 upper uv).
  { apply arg_value_frame with h0; auto. }
  destruct (run_as_tensor upper uv h1 Hu1) as (ub & h2 & E2 & L2 & F2 & N2).
  step E2.
  exists lb, ub, h2. repeat split; auto.
  - intros l v H. apply F2, F1. exact H.
  - rewrite N2, N1. reflexivity.
  - step ((run_cmp_scalar xltb _ PInf _ _ L2)).
    unfold double_sided.
    destruct (torch_any (map (fun e => xltb e PInf) uv)); cbn [andb].
    + rewrite (run_bind_ok _ _ _ _ _
                (run_bind_ok _ _ _ _ _ (run_cmp_scalar xgtb _ NInf _ _ (F2 _ _ L1)))).
      unfold ret at 1.
      destruct (torch_any (map (fun e => xgtb e NInf) lv) && negb (py_eqb tr (Some sigmoid)));
        [reflexivity|].
      destruct tr, inv; reflexivity.
    + unfold bind at 1, ret at 1.
      destruct tr, inv; reflexivity.
Qed.

Lemma torch_any_finite_lt_inf v :
  v <> [] -> Forall is_finite v -> torch_any (map (fun e => xltb e PInf) v) = true.
Proof.
  destruct v as [|a v]; [easy|]. intros _ H.
  apply Forall_cons in H as [Ha _]. destruct a; simpl in *; easy.
Qed.

Lemma torch_any_finite_gt_ninf v :
  v <> [] -> Forall is_finite v -> torch_any (map (fun e => xgtb e NInf) v) = true.
Proof.
  destruct v as [|a v]; [easy|]. intros _ H.
  apply Forall_cons in H as [Ha _]. destruct a; simpl in *; easy.
Qed.

Lemma torch_any_pinf_lt_inf v :
  Forall (eq PInf) v -> torch_any (map (fun e => xltb e PInf) v) = false.
Proof.
  induction 1 as [|a v Ha _ IH]; [reflexivity|].
  subst a. simpl. exact IH.
Qed.

Lemma torch_any_ninf_gt_ninf v :
  Forall (eq NInf) v -> torch_any (map (fun e => xgtb e NInf) v) = false.
Proof.
  induction 1 as [|a v Ha _ IH]; [reflexivity|].
  subst a. simpl. exact IH.
Qed.

(** C5. [Interval.__init__] on bounds that are all finite (and not empty)
    with a transform that is not [sigmoid] raises the "double sided bound"
    [RuntimeError] (IncompatibleConstraintError); when the upper bound is
    [+inf] or the lower bound is [-inf], and an inverse is passed as in the
    default call, the construction succeeds and yields a constraint with the
    given bounds and transform. *)
Theorem Interval_init_double_sided_guard h k lower upper tr inv lv uv :
  arg_value h lower lv -> arg_value h upper uv ->
  (lv <> [] /\ uv <> [] /\ Forall is_finite lv /\ Forall is_finite uv
   /\ tr <> Some sigmoid ->
   exists h',
     Interval_init k lower upper tr inv h
     = (Raise (RuntimeError double_sided_msg), h')
     /\ IncompatibleConstraintError (RuntimeError double_sided_msg))
  /\
  ((Forall (eq PInf) uv \/ Forall (eq NInf) lv) /\ inv <> None ->
   exists c h',
     Interval_init k lower upper tr inv h = (Ok c, h')
     /\ klass c = k /\ _transform c = tr
     /\ cells h' !! lower_bound c = Some lv
     /\ cells h' !! upper_bound c = Some uv).
Proof.
  intros Hl Hu.
  destruct (run_Interval_init h k lower upper tr inv lv uv Hl Hu)
    as (lb & ub & h' & L & U & _ & _ & E).
  split.
  - intros (Nl & Nu & Fl & Fu & Htr).
    exists h'. split; [|now left].
    rewrite E. unfold double_sided.
    rewrite torch_any_finite_lt_inf, torch_any_finite_gt_ninf by assumption.
    destruct (py_eqb tr (Some sigmoid)) eqn:Eq; [|reflexivity].
    apply py_eqb_sigmoid in Eq. contradiction.
  - intros (Hinf & Hinv).
    assert (D : double_sided lv uv tr = false).
    { unfold double_sided. destruct Hinf as [H|H].
      - now rewrite torch_any_pinf_lt_inf.
      - rewrite torch_any_ninf_gt_ninf by assumption.
        now rewrite andb_false_r. }
    rewrite E, D.
    destruct inv as [g|]; [|contradiction].
    exists (mkConstraint (next_id h) k lb ub tr None), h'.
    destruct tr; repeat split; assumption.
Qed.

(** [Interval(0, 10, transform=exp)] raises and
    [Interval(0, math.inf, transform=exp)] succeeds. *)
Lemma Interval_init_double_sided_guard_witness :
  (exists h',
     Interval_init Interval (PyFloat (Fin 0)) (PyFloat (Fin 10))
       (Some torch_exp) (Some inv_sigmoid) empty_heap
     = (Raise (RuntimeError double_sided_msg), h'))
  /\
  (exists c h',
     Interval_init Interval (PyFloat (Fin 0)) (PyFloat PInf)
       (Some torch_exp) (Some inv_sigmoid) empty_heap
     = (Ok c, h')).
Proof.
  split.
  - destruct (Interval_init_double_sided_guard empty_heap Interval
                (PyFloat (Fin 0)) (PyFloat (Fin 10)) (Some torch_exp)
                (Some inv_sigmoid) [Fin 0] [Fin 10] eq_refl eq_refl)
      as [H _].
    destruct H as (h' & E & _).
    + repeat split; try discriminate; repeat constructor.
    + now exists h'.
  - destruct (Interval_init_double_sided_guard empty_heap Interval
                (PyFloat (Fin 0)) (PyFloat PInf) (Some torch_exp)
                (Some inv_sigmoid) [Fin 0] [PInf] eq_refl eq_refl)
      as [_ H].
    destruct H as (c & h' & E & _).
    + split; [left; repeat constructor | discriminate].
    + now exists c, h'.
Defined.

(** ** The inverse that is never stored *)

Lemma Interval_init_fields h k lower upper tr inv c h' :
  Interval_init k lower upper tr inv h = (Ok c, h') ->
  klass c = k /\ _transform c = tr /\ oid c = next_id h
  /\ (inv <> None -> _inv_transform c = None).
Proof.
  unfold Interval_init. intros H.
  apply bind_inv_ok in H as (self & h0 & E0 & H).
  injection E0 as <- <-.
  apply bind_inv_ok in H as (lb & h1 & _ & H).
  apply bind_inv_ok in H as (ub & h2 & _ & H).
  apply bind_inv_ok in H as (m_u & h3 & _ & H).
  apply bind_inv_ok in H as (ds & h4 & _ & H).
  destruct ds; [discriminate|].
  destruct tr as [f|], inv as [g|].
  - injection H as <- <-. now repeat split.
  - apply bind_inv_ok in H as (g & h5 & _ & H).
    injection H as <- <-. now repeat split.
  - injection H as <- <-. now repeat split.
  - injection H as <- <-. now repeat split.
Qed.

Lemma getattr_inv_transform_absent c h :
  _inv_transform c = None ->
  getattr_inv_transform c h = (Raise (AttributeError "_inv_transform"), h).
Proof. intros H. unfold getattr_inv_transform. now rewrite H. Qed.

Lemma inverse_transform_absent_never_returns c t h r h' :
  enforced c = true -> _inv_transform c = None ->
  inverse_transform c t h = (Ok r, h') -> False.
Proof.
  intros He Hn. unfold inverse_transform.
  assert (G : forall h1 g h2, getattr_inv_transform c h1 = (Ok g, h2) -> False).
  { intros h1 g h2. rewrite getattr_inv_transform_absent by assumption. discriminate. }
  destruct (klass c);
    unfold Interval_inverse_transform, LessThan_inverse_transform;
    rewrite He; cbn [negb]; intros H.
  1-3: apply bind_inv_ok in H as (? & ? & _ & H);
       apply bind_inv_ok in H as (? & ? & _ & H);
       apply bind_inv_ok in H as (? & ? & _ & H);
       apply bind_inv_ok in H as (? & ? & _ & H);
       apply bind_inv_ok in H as (? & ? & H & _); eauto.
  apply bind_inv_ok in H as (? & ? & _ & H).
  apply bind_inv_ok in H as (? & ? & H & _). eauto.
Qed.

Lemma lookup_store_masked h t x v w l y :
  cells h !! t = Some x -> cells h !! l = Some y ->
  exists y', cells (store t (masked_assign v w x) h) !! l = Some y'
             /\ length y' = length y.
Proof.
  intros Ht Hl. destruct (Nat.eq_dec t l) as [->|Hne].
  - exists (masked_assign v w x). split; [eauto with heap|].
    assert (x = y) as <- by congruence. unfold masked_assign. now rewrite length_map.
  - exists y. split; [eauto with heap | reflexivity].
Qed.

Lemma broadcast_scalar_r {A : Type} (f : xreal -> xreal -> A) a b :
  length b = 1%nat -> exists r, broadcast f a b = Ok r /\ length r = length a.
Proof.
  destruct b as [|y [|? ?]]; try discriminate. intros _.
  destruct a as [|x [|x' a]]; simpl; eexists; split; try reflexivity.
  simpl. now rewrite length_map.
Qed.


Lemma inverse_transform_absent_scalar_bounds c t h tv lv uv :
  enforced c = true -> _inv_transform c = None ->
  cells h !! t = Some tv ->
  cells h !! lower_bound c = Some lv -> cells h !! upper_bound c = Some uv ->
  length lv = 1%nat -> length uv = 1%nat ->
  exists h',
    inverse_transform c t h = (Raise (AttributeError "_inv_transform"), h').
Proof.
  intros He Hn Ht Hl Hu Ll Lu. unfold inverse_transform.
  destruct (klass c) eqn:K;
    unfold Interval_inverse_transform, LessThan_inverse_transform;
    rewrite He; cbn [negb].
  1-3:
    step ((run_setitem_eq _ _ PInf (Fin 1) _ Hu));
    destruct (lookup_store_masked h _ uv PInf (Fin 1) _ lv Hu Hl) as (lv1 & Hl1 & Ll1);
    destruct (lookup_store_masked h _ uv PInf (Fin 1) _ tv Hu Ht) as (tv1 & Ht1 & _);
    destruct (lookup_store_masked h _ uv PInf (Fin 1) _ uv Hu Hu) as (uv1 & Hu1 & Lu1);
    step ((run_setitem_eq _ _ NInf (Fin 0) _ Hl1));
    destruct (lookup_store_masked _ _ lv1 NInf (Fin 0) _ lv1 Hl1 Hl1) as (lv2 & Hl2 & Ll2);
    destruct (lookup_store_masked _ _ lv1 NInf (Fin 0) _ tv1 Hl1 Ht1) as (tv2 & Ht2 & _);
    destruct (lookup_store_masked _ _ lv1 NInf (Fin 0) _ uv1 Hl1 Hu1) as (uv2 & Hu2 & Lu2);
    destruct (broadcast_scalar_r xsub tv2 lv2) as (d & Hd & _); [congruence|];
    unfold t_sub, t_div;
    step ((run_binop _ _ _ _ _ _ _ Ht2 Hl2 Hd));
    destruct (broadcast_scalar_r xdiv d uv2) as (q & Hq & _); [congruence|];
    rewrite (run_bind_ok _ _ _ _ _
               (run_binop _ _ _ _ _ _ _ (lookup_push_new _ d)
                  (lookup_push_old _ d _ _ Hu2) Hq));
    eexists;
    apply run_bind_raise, getattr_inv_transform_absent; assumption.
  destruct (broadcast_scalar_r xsub tv uv Lu) as (d & Hd & _).
  unfold t_sub.
  step ((run_binop _ _ _ _ _ _ _ Ht Hu Hd)).
  eexists. apply run_bind_raise, getattr_inv_transform_absent; assumption.
Qed.

(** C10. A constraint constructed with an [inv_transform] argument that is
    not [None] has no [_inv_transform] attribute; when it is enforced,
    [inverse_transform] never returns a value, and on scalar bounds it raises
    the [AttributeError] of the missing attribute. *)
Theorem inv_transform_never_stored h k lower upper tr g c h' :
  Interval_init k lower upper tr (Some g) h = (Ok c, h') ->
  _inv_transform c = None
  /\ (enforced c = true ->
      (forall t h1 r h2, inverse_transform c t h1 <> (Ok r, h2))
      /\ (forall t h1 tv lv uv,
            cells h1 !! t = Some tv ->
            cells h1 !! lower_bound c = Some lv ->
            cells h1 !! upper_bound c = Some uv ->
            length lv = 1%nat -> length uv = 1%nat ->
            exists h2,
              inverse_transform c t h1
              = (Raise (AttributeError "_inv_transform"), h2))).
Proof.
  intros H. apply Interval_init_fields in H as (_ & _ & _ & Hn).
  assert (N : _inv_transform c = None) by now apply Hn.
  split; [exact N|]. intros He. split.
  - intros t h1 r h2 E. eapply inverse_transform_absent_never_returns; eauto.
  - intros. eapply inverse_transform_absent_scalar_bounds; eauto.
Qed.

Lemma inv_transform_never_stored_witness :
  let c := mkConstraint 0 Positive 0 1 (Some softplus) None in
  let h := mkHeap [[Fin 0]; [PInf]; [Fin 3]] 1 in
  _inv_transform c = None
  /\ exists h2,
       inverse_transform c 2 h = (Raise (AttributeError "_inv_transform"), h2).
Proof.
  intros c h.
  destruct (inv_transform_never_stored empty_heap Positive
              (PyFloat (Fin 0)) (PyFloat PInf) (Some softplus) inv_softplus
              c (mkHeap [[Fin 0]; [PInf]] 1) eq_refl) as [H1 H2].
  split; [exact H1|].
  destruct (H2 eq_refl) as [_ H3].
  apply (H3 2%nat h [Fin 3] [Fin 0] [PInf]); reflexivity.
Defined.

(** ** [Interval.transform] *)

Lemma frame_store_fresh h0 h1 h v :
  frame h0 h1 -> frame h0 h -> frame h0 (store (length (cells h1)) v h).
Proof.
  intros F1 F l x H. apply lookup_store_old; [|auto].
  apply lookup_fresh_ne with x. auto.
Qed.

(** What [Interval.transform] does on an enforced constraint: the result is
    a new tensor holding [f(x) * upper' + lower'], where the primed bounds
    are the stored ones with [+inf] replaced by 1 and [-inf] by 0; no
    existing tensor changes. *)
Lemma run_Interval_transform c t h f x lv uv p q :
  _transform c = Some f ->
  cells h !! t = Some x ->
  cells h !! lower_bound c = Some lv ->
  cells h !! upper_bound c = Some uv ->
  broadcast xmul (map (apply_elem f) x) (masked_assign PInf (Fin 1) uv) = Ok p ->
  broadcast xadd p (masked_assign NInf (Fin 0) lv) = Ok q ->
  exists l' h',
    Interval_transform c t h = (Ok l', h')
    /\ cells h' !! l' = Some q /\ frame h h' /\ next_id h' = next_id h.
Proof.
  intros Hf Ht Hl Hu Hp Hq. unfold Interval_transform, enforced, py_call.
  rewrite Hf. cbn [negb].
  step ((run_call f _ _ _ Ht)).
  set (h1 := push (map (apply_elem f) x) h).
  assert (F1 : frame h h1) by apply frame_push.
  step ((run_clone _ _ _ (F1 _ _ Hu))).
  set (h2 := push uv h1).
  assert (F2 : frame h h2) by (eapply frame_trans; [exact F1 | apply frame_push]).
  rewrite (run_bind_ok _ _ _ _ _
             (run_setitem_eq _ _ PInf (Fin 1) _ (lookup_push_new h1 uv))).
  fold h2.
  set (h3 := store (length (cells h1)) (masked_assign PInf (Fin 1) uv) h2).
  assert (F3 : frame h h3) by (apply frame_store_fresh; assumption).
  assert (U3 : cells h3 !! length (cells h1) = Some (masked_assign PInf (Fin 1) uv)).
  { apply lookup_store_eq with uv. apply lookup_push_new. }
  assert (T3 : cells h3 !! length (cells h) = Some (map (apply_elem f) x)).
  { apply lookup_store_old.
    - apply lookup_fresh_ne with (map (apply_elem f) x). apply lookup_push_new.
    - apply lookup_push_old, lookup_push_new. }
  step ((run_clone _ _ _ (F3 _ _ Hl))).
  set (h4 := push lv h3).
  rewrite (run_bind_ok _ _ _ _ _
             (run_setitem_eq _ _ NInf (Fin 0) _ (lookup_push_new h3 lv))).
  fold h4.
  set (h5 := store (length (cells h3)) (masked_assign NInf (Fin 0) lv) h4).
  assert (F5 : frame h h5).
  { apply frame_store_fresh; [assumption|].
    eapply frame_trans; [exact F3 | apply frame_push]. }
  assert (L5 : cells h5 !! length (cells h3) = Some (masked_assign NInf (Fin 0) lv)).
  { apply lookup_store_eq with lv. apply lookup_push_new. }
  assert (U5 : cells h5 !! length (cells h1) = Some (masked_assign PInf (Fin 1) uv)).
  { apply lookup_store_old; [eauto with heap | apply lookup_push_old, U3]. }
  assert (T5 : cells h5 !! length (cells h) = Some (map (apply_elem f) x)).
  { apply lookup_store_old; [eauto with heap | apply lookup_push_old, T3]. }
  unfold t_mul, t_add.
  step ((run_binop _ _ _ _ _ _ _ T5 U5 Hp)).
  rewrite (run_bind_ok _ _ _ _ _
             (run_binop _ _ _ _ _ _ _ (lookup_push_new h5 p)
                (lookup_push_old _ p _ _ L5) Hq)).
  eexists _, _. split; [reflexivity|].
  split; [apply lookup_push_new|]. split; [|reflexivity].
  eapply frame_trans; [exact F5|].
  eapply frame_trans; apply frame_push.
Qed.

(** ** Softplus *)

Lemma ln_1_plus_lt y : 0 < y -> ln (1 + y) < y.
Proof.
  intros Hy. rewrite <- (ln_exp y) at 2.
  apply ln_increasing; [lra|]. apply exp_ineq1. lra.
Qed.

Lemma ln_1_plus_pos y : 0 < y -> 0 < ln (1 + y).
Proof. intros Hy. rewrite <- ln_1. apply ln_increasing; lra. Qed.

Lemma exp_nat n : exp (INR n) = exp 1 ^ n.
Proof.
  induction n as [|n IH].
  - cbn [INR pow]. apply exp_0.
  - rewrite S_INR, exp_plus, IH. cbn [pow]. apply Rmult_comm.
Qed.

Lemma exp_opp_nat n : exp (- INR n) = / exp 1 ^ n.
Proof. now rewrite exp_Ropp, exp_nat. Qed.

Lemma exp_1_gt_2 : 2 < exp 1.
Proof. pose proof (exp_ineq1 1). lra. Qed.

Lemma INR_150 : INR 150 = 150.
Proof. rewrite INR_IZR_INZ. reflexivity. Qed.

Lemma INR_80 : INR 80 = 80.
Proof. rewrite INR_IZR_INZ. reflexivity. Qed.

(** [exp(-150) <= 2^-150]: softplus underflows from there on. *)
Lemma exp_underflows r : r <= - 150 -> exp r <= underflow_bound.
Proof.
  intros Hr. apply Rle_trans with (exp (- INR 150)).
  - destruct (Rle_lt_or_eq_dec _ _ Hr) as [Lt | ->].
    + left. apply exp_increasing. rewrite INR_150. lra.
    + right. f_equal. rewrite INR_150. lra.
  - rewrite exp_opp_nat. unfold underflow_bound.
    apply Rinv_le_contravar; [apply pow_lt; lra|].
    apply pow_incr. pose proof exp_1_gt_2. lra.
Qed.

(** [2^-150 < exp(-80)]: no underflow down to -80. *)
Lemma exp_above_underflow r : - 80 <= r -> underflow_bound < exp r.
Proof.
  intros Hr. apply Rlt_le_trans with (exp (- INR 80)).
  - rewrite exp_opp_nat. unfold underflow_bound.
    apply Rlt_le_trans with (/ 3 ^ 80).
    + apply Rinv_lt_contravar.
      * apply Rmult_lt_0_compat; apply pow_lt; lra.
      * rewrite !pow_IZR. apply IZR_lt. reflexivity.
    + apply Rinv_le_contravar; [apply pow_lt; apply exp_pos|].
      apply pow_incr. pose proof (exp_pos 1). pose proof exp_le_3. lra.
  - destruct (Rle_lt_or_eq_dec _ _ Hr) as [Lt | <-].
    + left. apply exp_increasing. rewrite INR_80. lra.
    + right. f_equal. rewrite INR_80. lra.
Qed.

Lemma xsoftplus_finite_nonneg r : exists s, xsoftplus (Fin r) = Fin s /\ 0 <= s.
Proof.
  eexists. split; [reflexivity|]. unfold softplus_threshold.
  destruct (Rlt_b 20 r) eqn:E; [apply Rlt_b_true in E; lra|].
  destruct (Rle_b (exp r) underflow_bound); [lra|].
  left. apply ln_1_plus_pos, exp_pos.
Qed.

Lemma xsoftplus_finite_pos r :
  - 80 <= r -> exists s, xsoftplus (Fin r) = Fin s /\ 0 < s.
Proof.
  intros Hr. eexists. split; [reflexivity|]. unfold softplus_threshold.
  destruct (Rlt_b 20 r) eqn:E; [apply Rlt_b_true in E; lra|].
  destruct (Rle_b (exp r) underflow_bound) eqn:E1.
  - apply Rle_b_true in E1. pose proof (exp_above_underflow r Hr). lra.
  - apply ln_1_plus_pos, exp_pos.
Qed.

Lemma xsoftplus_underflow r : r <= - 150 -> xsoftplus (Fin r) = Fin 0.
Proof.
  intros Hr. unfold xsoftplus, softplus_threshold.
  destruct (Rlt_b 20 r) eqn:E; [apply Rlt_b_true in E; lra|].
  destruct (Rle_b (exp r) underflow_bound) eqn:E1; [reflexivity|].
  apply Rle_b_false in E1. now pose proof (exp_underflows r Hr).
Qed.

Lemma xsoftplus_vanishes eps :
  0 < eps ->
  exists M, forall r, r < M ->
    exists s, xsoftplus (Fin r) = Fin s /\ 0 <= s < eps.
Proof.
  intros He. exists (Rmin (ln eps) softplus_threshold). intros r Hr.
  pose proof (Rmin_l (ln eps) softplus_threshold).
  pose proof (Rmin_r (ln eps) softplus_threshold).
  destruct (xsoftplus_finite_nonneg r) as (s & Es & Ps).
  exists s. split; [exact Es|]. split; [exact Ps|].
  injection Es as <-. unfold softplus_threshold in *.
  destruct (Rlt_b 20 r) eqn:E; [apply Rlt_b_true in E; lra|].
  destruct (Rle_b (exp r) underflow_bound); [exact He|].
  apply Rlt_trans with (exp r); [apply ln_1_plus_lt, exp_pos|].
  replace eps with (exp (ln eps)) at 1 by (now apply exp_ln).
  apply exp_increasing. lra.
Qed.

(** ** [Positive().transform] *)

Lemma broadcast_scalar_r_eq {A : Type} (f : xreal -> xreal -> A) a y :
  broadcast f a [y] = Ok (map (fun x => f x y) a).
Proof. destruct a as [|x [|x' a]]; reflexivity. Qed.

Lemma xmul_1_xadd_0 e : xadd (xmul e (Fin 1)) (Fin 0) = e.
Proof.
  destruct e as [| |r|]; simpl; try reflexivity.
  - assert (E1 : Req_b 1 0 = false) by (apply Req_b_false; lra).
    assert (E2 : Rlt_b 1 0 = false) by (apply Rlt_b_false; lra).
    now rewrite E1, E2.
  - f_equal. lra.
  - assert (E1 : Req_b 1 0 = false) by (apply Req_b_false; lra).
    assert (E2 : Rlt_b 0 1 = true) by (apply Rlt_b_true; lra).
    now rewrite E1, E2.
Qed.

Lemma new_Positive_inv h c h1 :
  new_Positive h = (Ok c, h1) ->
  klass c = Positive /\ _transform c = Some softplus
  /\ _inv_transform c = None /\ oid c = next_id h
  /\ cells h1 !! lower_bound c = Some [Fin 0]
  /\ cells h1 !! upper_bound c = Some [PInf]
  /\ frame h h1.
Proof.
  unfold new_Positive, Positive_init, GreaterThan_init. intros H.
  destruct (run_Interval_init h Positive (PyFloat (Fin 0)) (PyFloat PInf)
              (Some softplus) (Some inv_softplus) [Fin 0] [PInf] eq_refl eq_refl)
    as (lb & ub & h' & L & U & F & _ & E).
  rewrite E in H. cbn in H. injection H as <- <-.
  now repeat split.
Qed.

Lemma run_Positive_transform depth c raw h x :
  klass c = Positive -> _transform c = Some softplus ->
  cells h !! raw = Some x ->
  cells h !! lower_bound c = Some [Fin 0] ->
  cells h !! upper_bound c = Some [PInf] ->
  exists l' h',
    transform (S depth) c raw h = (Ok l', h')
    /\ cells h' !! l' = Some (map xsoftplus x) /\ frame h h'.
Proof.
  intros K T Hx L U. cbn [transform]. rewrite K.
  destruct (run_Interval_transform c raw h softplus x [Fin 0] [PInf]
              (map (fun e => xmul e (Fin 1)) (map xsoftplus x))
              (map xsoftplus x) T Hx L U)
    as (l' & h3 & E & Hq & F3 & _).
  - cbn [masked_assign map xeqb]. apply broadcast_scalar_r_eq.
  - cbn [masked_assign map xeqb]. rewrite broadcast_scalar_r_eq. f_equal.
    rewrite map_map.
    transitivity (map (fun e => e) (map xsoftplus x)); [|apply map_id].
    apply map_ext. intros e. apply xmul_1_xadd_0.
  - now exists l', h3.
Qed.

(** C9, as the claim states it, fails: [Positive().transform(tensor(-200.))]
    returns a tensor that holds exactly 0, which is not strictly greater
    than 0: [exp(-200)] underflows to 0 in binary32 and [log1p(0)] is 0. *)
Lemma Positive_transform_zero_counterexample :
  let c := mkConstraint 0 Positive 0 1 (Some softplus) None in
  let h := mkHeap [[Fin 0]; [PInf]; [Fin (-200)]] 1 in
  (c' <- new_Positive ;;
   _ <- torch_tensor (Fin (-200)) ;;
   ret c') empty_heap = (Ok c, h)
  /\ exists l' h' s,
       transform 1 c 2 h = (Ok l', h')
       /\ cells h' !! l' = Some [Fin s]
       /\ ~ 0 < s.
Proof.
  intros c h. split; [reflexivity|].
  destruct (run_Positive_transform 0 c 2%nat h [Fin (-200)])
    as (l' & h' & E & V & _); try reflexivity.
  exists l', h', 0. split; [exact E|]. split; [|lra].
  rewrite V. cbn [map]. rewrite xsoftplus_underflow by lra. reflexivity.
Qed.

(** C9, amended. [Positive().transform(raw)] returns a new tensor whose
    elements are [softplus] of the elements of [raw]; [softplus] of a finite
    number is greater than or equal to 0, it is strictly positive from -80
    upwards, and it tends to 0 at minus infinity. *)
Theorem Positive_transform_nonnegative h c h1 :
  new_Positive h = (Ok c, h1) ->
  (forall depth h2 raw x,
      frame h1 h2 -> cells h2 !! raw = Some x ->
      exists l' h3,
        transform (S depth) c raw h2 = (Ok l', h3)
        /\ cells h3 !! l' = Some (map xsoftplus x) /\ frame h2 h3)
  /\ (forall r, exists s, xsoftplus (Fin r) = Fin s /\ 0 <= s)
  /\ (forall r, - 80 <= r -> exists s, xsoftplus (Fin r) = Fin s /\ 0 < s)
  /\ (forall eps, 0 < eps ->
      exists M, forall r, r < M ->
        exists s, xsoftplus (Fin r) = Fin s /\ 0 <= s < eps).
Proof.
  intros H. apply new_Positive_inv in H as (K & T & _ & _ & L & U & _).
  split; [|split; [apply xsoftplus_finite_nonneg
                  |split; [apply xsoftplus_finite_pos | apply xsoftplus_vanishes]]].
  intros depth h2 raw x F Hx.
  apply run_Positive_transform; auto.
Qed.

Lemma Positive_transform_nonnegative_witness :
  exists l' h3,
    transform 1 (mkConstraint 0 Positive 0 1 (Some softplus) None) 2
      (mkHeap [[Fin 0]; [PInf]; [Fin (-5)]] 1) = (Ok l', h3)
    /\ cells h3 !! l' = Some [xsoftplus (Fin (-5))].
Proof.
  destruct (Positive_transform_nonnegative empty_heap
              (mkConstraint 0 Positive 0 1 (Some softplus) None)
              (mkHeap [[Fin 0]; [PInf]] 1) eq_refl) as [H _].
  destruct (H 0%nat (mkHeap [[Fin 0]; [PInf]; [Fin (-5)]] 1) 2%nat [Fin (-5)])
    as (l' & h3 & E & Hq & _).
  - intros l v Hl. apply (lookup_app_l_Some _ [[Fin (-5)]]) in Hl. exact Hl.
  - reflexivity.
  - now exists l', h3.
Defined.

(** ** [check] *)

Lemma xleb_true a b : xleb a b = true <-> xle a b.
Proof.
  destruct a, b; simpl; try (split; intros; easy).
  apply Rle_b_true.
Qed.

Lemma xle_refl_l a b : xle a b -> xle a a.
Proof. destruct a, b; simpl; try easy; intros; lra. Qed.

Lemma xle_refl_r a b : xle a b -> xle b b.
Proof. destruct a, b; simpl; try easy; intros; lra. Qed.

Lemma broadcast_pairs {A : Type} (f : xreal -> xreal -> A) a b :
  compatible a b = true ->
  broadcast f a b = Ok (map (fun p => f (fst p) (snd p)) (pairs a b)).
Proof.
  unfold broadcast, compatible, pairs.
  destruct a as [|x [|x' a]], b as [|y [|y' b]]; intros H;
    rewrite ?H, ?map_map; try reflexivity; try discriminate.
  all: f_equal; rewrite zip_with_zip; apply map_ext; intros [u v]; reflexivity.
Qed.


Lemma torch_all_map {A : Type} (g : A -> bool) l :
  torch_all (map g l) = true <-> Forall (fun p => g p = true) l.
Proof.
  unfold torch_all. induction l as [|p l IH]; simpl.
  - split; [constructor | reflexivity].
  - rewrite andb_true_iff, IH. split.
    + intros [H1 H2]. now constructor.
    + intros H. apply Forall_cons in H. exact H.
Qed.

Lemma Forall_iff_ext {A : Type} (P Q : A -> Prop) l :
  (forall x, P x <-> Q x) -> Forall P l <-> Forall Q l.
Proof.
  intros H. split; intros F; eapply Forall_impl; try exact F; intros x; apply H.
Qed.

Lemma run_check c t h tv lv uv :
  cells h !! t = Some tv ->
  cells h !! lower_bound c = Some lv ->
  cells h !! upper_bound c = Some uv ->
  check c t h =
    match broadcast xleb tv uv with
    | Raise e => (Raise e, h)
    | Ok m1 =>
        if torch_all m1
        then match broadcast xgeb tv lv with
             | Raise e => (Raise e, h)
             | Ok m2 => (Ok (torch_all m2), h)
             end
        else (Ok false, h)
    end.
Proof.
  intros Ht Hl Hu. unfold check.
  unfold bind at 1. rewrite (run_cmp _ _ _ _ _ _ Ht Hu).
  destruct (broadcast xleb tv uv) as [m1|e]; [|reflexivity].
  destruct (torch_all m1); [|reflexivity].
  unfold bind. rewrite (run_cmp _ _ _ _ _ _ Ht Hl).
  destruct (broadcast xgeb tv lv); reflexivity.
Qed.

Lemma check_within c t h tv lv uv :
  cells h !! t = Some tv ->
  cells h !! lower_bound c = Some lv ->
  cells h !! upper_bound c = Some uv ->
  compatible tv uv = true -> compatible tv lv = true ->
  exists b,
    check c t h = (Ok b, h)
    /\ (b = true <->
        Forall (fun p => xle (fst p) (snd p)) (pairs tv uv)
        /\ Forall (fun p => xle (snd p) (fst p)) (pairs tv lv)).
Proof.
  intros Ht Hl Hu Cu Cl.
  rewrite (run_check c t h tv lv uv Ht Hl Hu).
  rewrite (broadcast_pairs xleb _ _ Cu), (broadcast_pairs xgeb _ _ Cl).
  pose proof (torch_all_map (fun p => xleb (fst p) (snd p)) (pairs tv uv)) as A1.
  pose proof (torch_all_map (fun p => xgeb (fst p) (snd p)) (pairs tv lv)) as A2.
  rewrite (Forall_iff_ext _ (fun p => xle (fst p) (snd p))) in A1
    by (intros p; apply xleb_true).
  rewrite (Forall_iff_ext _ (fun p => xle (snd p) (fst p))) in A2
    by (intros p; apply xleb_true).
  destruct (torch_all (map (fun p => xleb (fst p) (snd p)) (pairs tv uv))).
  - eexists. split; [reflexivity|]. rewrite A2. split.
    + intros H. split; [now apply A1 | exact H].
    + intros [_ H]. exact H.
  - exists false. split; [reflexivity|]. split; [discriminate|].
    intros [H _]. apply A1 in H. discriminate.
Qed.

Lemma pairs_scalar_r a y : pairs a [y] = map (fun x => (x, y)) a.
Proof. destruct a as [|x [|x' a]]; reflexivity. Qed.

Lemma pairs_same_length a b : length a = length b -> pairs a b = zip a b.
Proof.
  destruct a as [|x [|x' a]], b as [|y [|y' b]]; simpl; intros H;
    try reflexivity; discriminate.
Qed.

Lemma compatible_same_length a b : length a = length b -> compatible a b = true.
Proof.
  destruct a as [|x [|x' a]], b as [|y [|y' b]]; simpl; intros H;
    try reflexivity; try discriminate.
  apply Nat.eqb_eq. now injection H as ->.
Qed.

Lemma Forall2_zip (R : xreal -> xreal -> Prop) a b :
  Forall2 R a b -> Forall (fun p => R (fst p) (snd p)) (zip a b).
Proof. induction 1; simpl; constructor; assumption. Qed.

Lemma Forall_zip_diag (R : xreal -> xreal -> Prop) a :
  Forall (fun x => R x x) a -> Forall (fun p => R (fst p) (snd p)) (zip a a).
Proof. induction 1; simpl; constructor; assumption. Qed.

Lemma check_bound_true c t h tv lv uv :
  cells h !! t = Some tv ->
  cells h !! lower_bound c = Some lv ->
  cells h !! upper_bound c = Some uv ->
  Forall2 xle tv uv -> Forall2 xle lv tv ->
  check c t h = (Ok true, h).
Proof.
  intros Ht Hl Hu Hu2 Hl2.
  assert (Lu : length tv = length uv) by (eapply Forall2_length; eassumption).
  assert (Ll : length tv = length lv)
    by (symmetry; eapply Forall2_length; eassumption).
  destruct (check_within c t h tv lv uv Ht Hl Hu) as (b & E & Hb);
    try (apply compatible_same_length; assumption).
  rewrite E. f_equal. f_equal. apply Hb.
  rewrite !pairs_same_length by assumption. split.
  - now apply Forall2_zip.
  - apply Forall2_flip in Hl2.
    apply (Forall2_zip (fun x y => xle y x)). exact Hl2.
Qed.

(** C8. On shapes that broadcast, [check] returns a boolean without
    changing the store, and the boolean is true exactly when every element
    of the value is at most its upper bound and at least its lower bound.
    With scalar bounds [l] and [u] this is: every element lies in [[l, u]].
    When the lower bound is elementwise at most the upper bound, [check] of
    the lower bound tensor and of the upper bound tensor are both true. *)
Theorem check_iff_within c t h tv lv uv :
  cells h !! t = Some tv ->
  cells h !! lower_bound c = Some lv ->
  cells h !! upper_bound c = Some uv ->
  compatible tv uv = true -> compatible tv lv = true ->
  (exists b,
      check c t h = (Ok b, h)
      /\ (b = true <->
          Forall (fun p => xle (fst p) (snd p)) (pairs tv uv)
          /\ Forall (fun p => xle (snd p) (fst p)) (pairs tv lv)))
  /\ (forall l u, lv = [l] -> uv = [u] ->
      exists b,
        check c t h = (Ok b, h)
        /\ (b = true <-> Forall (fun x => xle l x /\ xle x u) tv))
  /\ (Forall2 xle lv uv ->
      check c (lower_bound c) h = (Ok true, h)
      /\ check c (upper_bound c) h = (Ok true, h)).
Proof.
  intros Ht Hl Hu Cu Cl.
  destruct (check_within c t h tv lv uv Ht Hl Hu Cu Cl) as (b & E & Hb).
  split; [now exists b|]. split.
  - intros l u -> ->. exists b. split; [exact E|]. rewrite Hb.
    rewrite !pairs_scalar_r, !Forall_map. cbn [fst snd].
    rewrite Forall_and. tauto.
  - intros H2. split.
    + apply check_bound_true with lv lv uv; auto.
      eapply Forall2_impl with (P := fun x y => x = y /\ xle x x).
      * clear -H2. induction H2; constructor; auto.
        split; [reflexivity | eapply xle_refl_l; eassumption].
      * now intros x y [-> H].
    + apply check_bound_true with uv lv uv; auto.
      eapply Forall2_impl with (P := fun x y => x = y /\ xle x x).
      * clear -H2. induction H2; constructor; auto.
        split; [reflexivity | eapply xle_refl_r; eassumption].
      * now intros x y [-> H].
Qed.

Lemma check_iff_within_witness :
  let c := mkConstraint 0 Interval 0 1 (Some sigmoid) None in
  let h := mkHeap [[Fin 0]; [Fin 10]; [Fin 3]; [Fin 11]] 1 in
  check c 2 h = (Ok true, h) /\ check c 3 h = (Ok false, h)
  /\ check c 0 h = (Ok true, h) /\ check c 1 h = (Ok true, h).
Proof.
  intros c h.
  assert (L3 : xle (Fin 0) (Fin 3) /\ xle (Fin 3) (Fin 10)) by (simpl; lra).
  assert (L11 : ~ xle (Fin 11) (Fin 10)) by (simpl; lra).
  destruct (check_iff_within c 2%nat h [Fin 3] [Fin 0] [Fin 10]
              eq_refl eq_refl eq_refl eq_refl eq_refl) as (_ & S1 & B).
  destruct (check_iff_within c 3%nat h [Fin 11] [Fin 0] [Fin 10]
              eq_refl eq_refl eq_refl eq_refl eq_refl) as (_ & S2 & _).
  destruct (S1 _ _ eq_refl eq_refl) as (b1 & E1 & H1).
  destruct (S2 _ _ eq_refl eq_refl) as (b2 & E2 & H2).
  split; [|split].
  - rewrite E1. f_equal. f_equal. apply H1.
    constructor; [exact L3 | constructor].
  - rewrite E2. f_equal. f_equal. destruct b2; [|reflexivity].
    exfalso. apply L11.
    assert (T : true = true) by reflexivity.
    apply H2 in T. apply Forall_cons in T. tauto.
  - apply B. repeat constructor. simpl. lra.
Defined.

(** ** Construction with the default arguments *)

Lemma Interval_init_ok h k lower upper tr g lv uv :
  arg_value h lower lv -> arg_value h upper uv ->
  double_sided lv uv tr = false ->
  exists c h',
    Interval_init k lower upper tr (Some g) h = (Ok c, h')
    /\ klass c = k /\ _transform c = tr /\ _inv_transform c = None
    /\ oid c = next_id h
    /\ cells h' !! lower_bound c = Some lv
    /\ cells h' !! upper_bound c = Some uv
    /\ frame h h' /\ next_id h' = S (next_id h).
Proof.
  intros Hl Hu D.
  destruct (run_Interval_init h k lower upper tr (Some g) lv uv Hl Hu)
    as (lb & ub & h' & L & U & F & N & E).
  rewrite D in E.
  exists (mkConstraint (next_id h) k lb ub tr None), h'.
  split; [destruct tr; exact E|]. now repeat split.
Qed.

Lemma double_sided_sigmoid lv uv : double_sided lv uv (Some sigmoid) = false.
Proof. unfold double_sided. cbn [py_eqb pyfunc_eqb negb]. now rewrite !andb_false_r. Qed.

Lemma double_sided_upper_inf lv tr : double_sided lv [PInf] tr = false.
Proof. reflexivity. Qed.

Lemma double_sided_lower_ninf uv tr : double_sided [NInf] uv tr = false.
Proof. unfold double_sided. cbn. now rewrite andb_false_r. Qed.

(** ** [LessThan.transform] *)

(** On an enforced [LessThan] the method calls itself on [-tensor] before
    doing anything else: whatever the depth of stack available, the call
    ends in [RecursionError]. *)
Lemma LessThan_transform_recursion depth :
  forall c t h x,
    klass c = LessThan -> enforced c = true -> cells h !! t = Some x ->
    exists h', transform depth c t h = (Raise RecursionError, h').
Proof.
  induction depth as [|d IH]; intros c t h x K E Ht.
  - now exists h.
  - cbn [transform]. rewrite K. unfold LessThan_transform. rewrite E. cbn [negb].
    step ((run_t_neg _ _ _ Ht)).
    destruct (IH c (length (cells h)) (push (map xneg x) h) (map xneg x) K E
                (lookup_push_new _ _)) as (h' & E').
    exists h'. now apply run_bind_raise.
Qed.

(** When the stack is deep enough, a call of [transform] on a constraint of
    another class is [Interval.transform]. *)
Lemma transform_Interval depth c t :
  klass c <> LessThan -> transform (S depth) c t = Interval_transform c t.
Proof. intros K. cbn [transform]. now destruct (klass c). Qed.

Lemma round_trip_body_attribute_error depth c raw h f x lv uv :
  klass c <> LessThan -> _transform c = Some f -> _inv_transform c = None ->
  cells h !! raw = Some x ->
  cells h !! lower_bound c = Some lv -> cells h !! upper_bound c = Some uv ->
  length lv = 1%nat -> length uv = 1%nat ->
  exists h',
    (y <- transform (S depth) c raw ;; inverse_transform c y) h
    = (Raise (AttributeError "_inv_transform"), h').
Proof.
  intros K T N Hx Hl Hu Ll Lu. rewrite transform_Interval by assumption.
  destruct (broadcast_scalar_r xmul (map (apply_elem f) x)
              (masked_assign PInf (Fin 1) uv)) as (p & Hp & _).
  { unfold masked_assign. now rewrite length_map. }
  destruct (broadcast_scalar_r xadd p (masked_assign NInf (Fin 0) lv))
    as (q & Hq & _).
  { unfold masked_assign. now rewrite length_map. }
  destruct (run_Interval_transform c raw h f x lv uv p q T Hx Hl Hu Hp Hq)
    as (l' & h1 & E & Q & F & _).
  step E.
  apply inverse_transform_absent_scalar_bounds with q lv uv; auto.
  unfold enforced. now rewrite T.
Qed.

Lemma round_trip_attribute_error depth h k lower upper f g r l u :
  k <> LessThan ->
  arg_value h lower [l] -> arg_value h upper [u] ->
  double_sided [l] [u] (Some f) = false ->
  exists h',
    round_trip (S depth) (Interval_init k lower upper (Some f) (Some g)) r h
    = (Raise (AttributeError "_inv_transform"), h').
Proof.
  intros K Hl Hu D. unfold round_trip.
  destruct (Interval_init_ok h k lower upper (Some f) g [l] [u] Hl Hu D)
    as (c & h1 & E & Kc & T & N & _ & L & U & _ & _).
  step E.
  assert (A : torch_tensor r h1 = (Ok (length (cells h1)), push [r] h1))
    by reflexivity.
  step A.
  apply round_trip_body_attribute_error with f [r] [l] [u]; auto with heap.
  congruence.
Qed.

Lemma new_LessThan_ok h u :
  exists c h',
    new_LessThan (PyFloat u) h = (Ok c, h')
    /\ klass c = LessThan /\ enforced c = true /\ _inv_transform c = None
    /\ cells h' !! lower_bound c = Some [NInf]
    /\ cells h' !! upper_bound c = Some [u].
Proof.
  destruct (Interval_init_ok h LessThan (PyFloat NInf) (PyFloat u)
              (Some softplus) inv_softplus [NInf] [u] eq_refl eq_refl
              (double_sided_lower_ninf _ _))
    as (c & h' & E & K & T & N & _ & L & U & _).
  exists c, h'. repeat split; auto. unfold enforced. now rewrite T.
Qed.

(** C3. [LessThan(u).transform(raw)] never returns: for every upper bound,
    every input and every depth of stack it ends in [RecursionError]; and
    [LessThan(u).inverse_transform] raises the [AttributeError] of the
    missing [_inv_transform]. *)
Theorem LessThan_transform_never_returns h depth u r :
  (exists h',
      (c <- new_LessThan (PyFloat u) ;;
       raw <- torch_tensor r ;;
       transform depth c raw) h = (Raise RecursionError, h'))
  /\ (exists h',
      (c <- new_LessThan (PyFloat u) ;;
       y <- torch_tensor r ;;
       inverse_transform c y) h
      = (Raise (AttributeError "_inv_transform"), h')).
Proof.
  destruct (new_LessThan_ok h u) as (c & h1 & E & K & En & N & L & U).
  assert (A : torch_tensor r h1 = (Ok (length (cells h1)), push [r] h1))
    by reflexivity.
  split.
  - rewrite (run_bind_ok _ _ _ _ _ E), (run_bind_ok _ _ _ _ _ A).
    apply LessThan_transform_recursion with [r]; auto with heap.
  - rewrite (run_bind_ok _ _ _ _ _ E), (run_bind_ok _ _ _ _ _ A).
    apply inverse_transform_absent_scalar_bounds with [r] [NInf] [u];
      auto with heap.
Qed.

(** C1. The round trip [inverse_transform(transform(raw))] returns no value
    on a constraint built with the default arguments: on [Interval],
    [GreaterThan] and [Positive] the call of [inverse_transform] raises the
    [AttributeError] of the missing [_inv_transform]; on [LessThan] already
    the call of [transform] ends in [RecursionError]. *)
Theorem round_trip_of_defaults_raises h depth r :
  (forall l u, exists h',
      round_trip (S depth) (new_Interval (PyFloat l) (PyFloat u)) r h
      = (Raise (AttributeError "_inv_transform"), h'))
  /\ (forall l, exists h',
      round_trip (S depth) (new_GreaterThan (PyFloat l)) r h
      = (Raise (AttributeError "_inv_transform"), h'))
  /\ (exists h',
      round_trip (S depth) new_Positive r h
      = (Raise (AttributeError "_inv_transform"), h'))
  /\ (forall u, exists h',
      round_trip depth (new_LessThan (PyFloat u)) r h
      = (Raise RecursionError, h')).
Proof.
  repeat split.
  - intros l u. apply round_trip_attribute_error with l u;
      try reflexivity; try discriminate. apply double_sided_sigmoid.
  - intros l. apply round_trip_attribute_error with l PInf;
      try reflexivity; discriminate.
  - apply round_trip_attribute_error with (Fin 0) PInf;
      try reflexivity; discriminate.
  - intros u. unfold round_trip.
    destruct (new_LessThan_ok h u) as (c & h1 & E & K & En & _).
    step E.
    assert (A : torch_tensor r h1 = (Ok (length (cells h1)), push [r] h1))
      by reflexivity.
    step A.
    destruct (LessThan_transform_recursion depth c (length (cells h1))
                (push [r] h1) [r] K En (lookup_push_new _ _)) as (h' & E').
    exists h'. now apply run_bind_raise.
Qed.

(** ** [intersect] *)

(** The test of [intersect] compares the two bound methods
    [self.transform] and [other.transform]: they are equal only when both
    are bound to the same object. *)
Lemma bound_method_eqb_oid a b :
  bound_method_eqb (getattr_transform a) (getattr_transform b) = true ->
  oid a = oid b.
Proof.
  unfold bound_method_eqb, getattr_transform. cbn [fst snd].
  intros H. apply andb_true_iff in H as [_ H]. now apply Nat.eqb_eq.
Qed.

Lemma bound_method_eqb_refl a :
  bound_method_eqb (getattr_transform a) (getattr_transform a) = true.
Proof.
  unfold bound_method_eqb, getattr_transform. cbn [fst snd].
  rewrite Nat.eqb_refl. now destruct (klass a).
Qed.

Lemma intersect_distinct_objects a b h :
  oid a <> oid b ->
  intersect a b h = (Raise (RuntimeError conflicting_msg), h).
Proof.
  intros H. unfold intersect.
  destruct (bound_method_eqb (getattr_transform a) (getattr_transform b)) eqn:E.
  - apply bound_method_eqb_oid in E. contradiction.
  - reflexivity.
Qed.

Lemma intersect_of_new_Intervals h lower1 upper1 lower2 upper2 l1 u1 l2 u2 :
  arg_value h lower1 l1 -> arg_value h upper1 u1 ->
  arg_value h lower2 l2 -> arg_value h upper2 u2 ->
  exists h',
    (a <- new_Interval lower1 upper1 ;;
     b <- new_Interval lower2 upper2 ;;
     intersect a b) h = (Raise (RuntimeError conflicting_msg), h').
Proof.
  intros L1 U1 L2 U2.
  destruct (Interval_init_ok h Interval lower1 upper1 (Some sigmoid) inv_sigmoid
              l1 u1 L1 U1 (double_sided_sigmoid _ _))
    as (a & h1 & Ea & _ & _ & _ & Oa & _ & _ & F1 & N1).
  destruct (Interval_init_ok h1 Interval lower2 upper2 (Some sigmoid) inv_sigmoid
              l2 u2 (arg_value_frame _ _ _ _ F1 L2) (arg_value_frame _ _ _ _ F1 U2)
              (double_sided_sigmoid _ _))
    as (b & h2 & Eb & _ & _ & _ & Ob & _).
  exists h2. unfold new_Interval.
  rewrite (run_bind_ok _ _ _ _ _ Ea), (run_bind_ok _ _ _ _ _ Eb).
  apply intersect_distinct_objects. rewrite Oa, Ob, N1. lia.
Qed.

(** C6. [intersect] of two constraints that were both constructed with the
    default transform ([sigmoid]), hence use the same transform function,
    raises the "conflicting transforms" [RuntimeError]: whatever the four
    bounds are. *)
Theorem intersect_same_transform_raises h l1 u1 l2 u2 :
  exists h',
    (a <- new_Interval (PyFloat l1) (PyFloat u1) ;;
     b <- new_Interval (PyFloat l2) (PyFloat u2) ;;
     intersect a b) h = (Raise (RuntimeError conflicting_msg), h')
    /\ IncompatibleConstraintError (RuntimeError conflicting_msg).
Proof.
  destruct (intersect_of_new_Intervals h (PyFloat l1) (PyFloat u1)
              (PyFloat l2) (PyFloat u2) [l1] [u1] [l2] [u2]
              eq_refl eq_refl eq_refl eq_refl) as (h' & E).
  exists h'. split; [exact E | now right].
Qed.

(** C2. [Interval(0, 10).intersect(Interval(2, 20))] raises instead of
    returning the interval [(2, 10)]; and where [intersect] does return,
    on a constraint and itself, the result is built by [Interval(lower,
    upper)] with the default transform: for a [GreaterThan] (transform
    [softplus]) the result has transform [sigmoid]. *)
Theorem intersect_example_raises h :
  (exists h',
      (a <- new_Interval (PyFloat (Fin 0)) (PyFloat (Fin 10)) ;;
       b <- new_Interval (PyFloat (Fin 2)) (PyFloat (Fin 20)) ;;
       intersect a b) h = (Raise (RuntimeError conflicting_msg), h'))
  /\ (forall l, exists g h1 c h',
      new_GreaterThan (PyFloat l) h = (Ok g, h1)
      /\ _transform g = Some softplus
      /\ intersect g g h1 = (Ok c, h')
      /\ klass c = Interval /\ _transform c = Some sigmoid).
Proof.
  split.
  - apply intersect_of_new_Intervals
      with [Fin 0] [Fin 10] [Fin 2] [Fin 20]; reflexivity.
  - intros l.
    destruct (Interval_init_ok h GreaterThan (PyFloat l) (PyFloat PInf)
                (Some softplus) inv_softplus [l] [PInf] eq_refl eq_refl eq_refl)
      as (g & h1 & Eg & _ & Tg & _ & _ & L & U & _).
    exists g, h1. unfold intersect. rewrite bound_method_eqb_refl. cbn [negb].
    destruct (broadcast_scalar_r xmax [l] [l] eq_refl) as (lo & Hlo & _).
    destruct (broadcast_scalar_r xmin [PInf] [PInf] eq_refl) as (hi & Hhi & _).
    unfold torch_max, torch_min.
    step ((run_binop _ _ _ _ _ _ _ L L Hlo)).
    rewrite (run_bind_ok _ _ _ _ _
               (run_binop _ _ _ _ _ _ _ (lookup_push_old _ lo _ _ U)
                  (lookup_push_old _ lo _ _ U) Hhi)).
    destruct (Interval_init_ok (push hi (push lo h1)) Interval
                (PyTensor (length (cells h1)))
                (PyTensor (length (cells (push lo h1))))
                (Some sigmoid) inv_sigmoid lo hi)
      as (c & h' & Ec & Kc & Tc & _).
    + cbn [arg_value]. apply lookup_push_old, lookup_push_new.
    + cbn [arg_value]. apply lookup_push_new.
    + apply double_sided_sigmoid.
    + exists c, h'. repeat split; assumption.
Qed.

(** ** [Interval.inverse_transform] *)

(** What [Interval.inverse_transform] does when the inverse is present and
    the argument and the two bounds are three different tensors: the two
    stored bounds are overwritten by their adjusted values, and the result
    is computed from the adjusted values. *)
Lemma run_Interval_inverse_transform c t h g tv lv uv v :
  enforced c = true -> _inv_transform c = Some g ->
  cells h !! t = Some tv ->
  cells h !! lower_bound c = Some lv ->
  cells h !! upper_bound c = Some uv ->
  lower_bound c <> upper_bound c ->
  t <> lower_bound c -> t <> upper_bound c ->
  inverse_affine g tv (adjusted_lower lv) (adjusted_upper uv) = Ok v ->
  exists l' h',
    Interval_inverse_transform c t h = (Ok l', h')
    /\ cells h' !! l' = Some v
    /\ cells h' !! lower_bound c = Some (adjusted_lower lv)
    /\ cells h' !! upper_bound c = Some (adjusted_upper uv)
    /\ cells h' !! t = Some tv.
Proof.
  intros En G Ht Hl Hu Nlu Ntl Ntu A.
  unfold inverse_affine in A.
  destruct (broadcast xsub tv (adjusted_lower lv)) as [d|] eqn:Hd; [|discriminate].
  destruct (broadcast xdiv d (adjusted_upper uv)) as [q|] eqn:Hq; [|discriminate].
  injection A as <-.
  unfold Interval_inverse_transform. rewrite En. cbn [negb].
  step ((run_setitem_eq _ _ PInf (Fin 1) _ Hu)).
  fold (adjusted_upper uv).
  set (h1 := store (upper_bound c) (adjusted_upper uv) h).
  assert (U1 : cells h1 !! upper_bound c = Some (adjusted_upper uv))
    by eauto with heap.
  assert (L1 : cells h1 !! lower_bound c = Some lv) by eauto with heap.
  assert (T1 : cells h1 !! t = Some tv) by eauto with heap.
  step ((run_setitem_eq _ _ NInf (Fin 0) _ L1)).
  fold (adjusted_lower lv).
  set (h2 := store (lower_bound c) (adjusted_lower lv) h1).
  assert (L2 : cells h2 !! lower_bound c = Some (adjusted_lower lv))
    by eauto with heap.
  assert (U2 : cells h2 !! upper_bound c = Some (adjusted_upper uv))
    by eauto with heap.
  assert (T2 : cells h2 !! t = Some tv) by eauto with heap.
  unfold t_sub, t_div.
  step ((run_binop _ _ _ _ _ _ _ T2 L2 Hd)).
  rewrite (run_bind_ok _ _ _ _ _
             (run_binop _ _ _ _ _ _ _ (lookup_push_new h2 d)
                (lookup_push_old _ d _ _ U2) Hq)).
  unfold getattr_inv_transform. rewrite G.
  rewrite (run_bind_ok (ret g) _ _ g _ eq_refl).
  step ((run_call g _ _ _ (lookup_push_new _ q))).
  eexists _, _. split; [reflexivity|].
  split; [apply lookup_push_new|].
  repeat split; repeat apply lookup_push_old; assumption.
Qed.

Lemma inverse_transform_Interval c t :
  klass c <> LessThan -> inverse_transform c t = Interval_inverse_transform c t.
Proof. intros K. unfold inverse_transform. now destruct (klass c). Qed.

Lemma exp_gt_1 x : 0 < x -> 1 < exp x.
Proof. intros H. rewrite <- exp_0. now apply exp_increasing. Qed.

Lemma xinv_softplus_0 : xinv_softplus (Fin 0) = NInf.
Proof.
  unfold xinv_softplus. cbn [xexp xsub xneg xadd xlog]. rewrite exp_0.
  destruct (Rlt_b _ 0) eqn:E1; [apply Rlt_b_true in E1; lra|].
  destruct (Req_b _ 0) eqn:E2; [reflexivity|].
  apply Req_b_false in E2. lra.
Qed.

Lemma xinv_softplus_pos x :
  0 < x -> exists y, xinv_softplus (Fin x) = Fin y.
Proof.
  intros H. unfold xinv_softplus. cbn [xexp xsub xneg xadd xlog].
  pose proof (exp_gt_1 x H).
  destruct (Rlt_b _ 0) eqn:E1; [apply Rlt_b_true in E1; lra|].
  destruct (Req_b _ 0) eqn:E2; [apply Req_b_true in E2; lra|].
  eexists. reflexivity.
Qed.

Lemma xdiv_1 x : xdiv (Fin x) (Fin 1) = Fin (x / 1).
Proof.
  cbn [xdiv].
  assert (E : Req_b 1 0 = false) by (apply Req_b_false; lra).
  now rewrite E.
Qed.

(** C7, as the claim states it, fails: on [GreaterThan(2.,
    inv_transform=None)], whose stored upper bound is [+inf], the call
    [inverse_transform(tensor(5.))] returns [inv_softplus((5 - 2) / 1)], a
    finite number, not [inv_softplus((5 - 2) / inf) = inv_softplus(0) =
    -inf]. *)
Lemma inverse_transform_unadjusted_counterexample :
  let c := mkConstraint 0 GreaterThan 0 1 (Some softplus) (Some inv_softplus) in
  let h := mkHeap [[Fin 2]; [PInf]; [Fin 5]] 1 in
  (c' <- GreaterThan_init GreaterThan (PyFloat (Fin 2)) (Some softplus) None ;;
   _ <- torch_tensor (Fin 5) ;;
   ret c') empty_heap = (Ok c, h)
  /\ exists l' h' v,
       inverse_transform c 2 h = (Ok l', h')
       /\ cells h' !! l' = Some v
       /\ inverse_transform_unadjusted_spec inv_softplus [Fin 5] [Fin 2] [PInf]
          <> Ok v.
Proof.
  intros c h. split; [reflexivity|].
  destruct (run_Interval_inverse_transform c 2%nat h inv_softplus
              [Fin 5] [Fin 2] [PInf]
              [xinv_softplus (xdiv (xsub (Fin 5) (Fin 2)) (Fin 1))])
    as (l' & h' & E & V & _); try reflexivity; try discriminate.
  exists l', h', [xinv_softplus (xdiv (xsub (Fin 5) (Fin 2)) (Fin 1))].
  split; [exact E|]. split; [exact V|].
  unfold inverse_transform_unadjusted_spec, inverse_affine.
  cbn [broadcast map apply_elem xsub xneg xadd].
  rewrite xdiv_1. cbn [xdiv]. rewrite xinv_softplus_0.
  match goal with
  | |- context [xinv_softplus (Fin ?a)] =>
      destruct (xinv_softplus_pos a) as (y & ->); [lra|]
  end.
  discriminate.
Qed.

(** C7, amended. On an enforced constraint of a class that inherits
    [Interval.inverse_transform], with its inverse present, the method
    returns [inv((t - lower') / upper')] where [lower'] and [upper'] are the
    adjusted bounds ([-inf] replaced by 0, [+inf] by 1); they are the bounds
    [Interval.transform] uses in [f(x) * upper' + lower']. *)
Theorem inverse_transform_affine_adjusted c t h g tv lv uv v :
  klass c <> LessThan ->
  enforced c = true -> _inv_transform c = Some g ->
  cells h !! t = Some tv ->
  cells h !! lower_bound c = Some lv ->
  cells h !! upper_bound c = Some uv ->
  lower_bound c <> upper_bound c ->
  t <> lower_bound c -> t <> upper_bound c ->
  inverse_affine g tv (adjusted_lower lv) (adjusted_upper uv) = Ok v ->
  (exists l' h',
      inverse_transform c t h = (Ok l', h') /\ cells h' !! l' = Some v)
  /\ (forall depth f raw x p q,
      _transform c = Some f -> cells h !! raw = Some x ->
      broadcast xmul (map (apply_elem f) x) (adjusted_upper uv) = Ok p ->
      broadcast xadd p (adjusted_lower lv) = Ok q ->
      exists l' h',
        transform (S depth) c raw h = (Ok l', h') /\ cells h' !! l' = Some q).
Proof.
  intros K En G Ht Hl Hu Nlu Ntl Ntu A. split.
  - rewrite inverse_transform_Interval by assumption.
    destruct (run_Interval_inverse_transform c t h g tv lv uv v
                En G Ht Hl Hu Nlu Ntl Ntu A) as (l' & h' & E & V & _).
    now exists l', h'.
  - intros depth f raw x p q T Hx Hp Hq.
    rewrite transform_Interval by assumption.
    destruct (run_Interval_transform c raw h f x lv uv p q T Hx Hl Hu Hp Hq)
      as (l' & h' & E & V & _).
    now exists l', h'.
Qed.

Lemma inverse_transform_affine_adjusted_witness :
  let c := mkConstraint 0 GreaterThan 0 1 (Some softplus) (Some inv_softplus) in
  let h := mkHeap [[Fin 2]; [PInf]; [Fin 5]] 1 in
  exists l' h',
    inverse_transform c 2 h = (Ok l', h')
    /\ cells h' !! l'
       = Some [xinv_softplus (xdiv (xsub (Fin 5) (Fin 2)) (Fin 1))].
Proof.
  intros c h.
  destruct (inverse_transform_affine_adjusted c 2%nat h inv_softplus
              [Fin 5] [Fin 2] [PInf]
              [xinv_softplus (xdiv (xsub (Fin 5) (Fin 2)) (Fin 1))])
    as [H _]; try reflexivity; try discriminate.
  exact H.
Defined.

(** The two item assignments of [Interval.inverse_transform] are done on
    the stored tensors before the missing attribute is read: the exception
    leaves the adjusted values in the store. *)
Lemma Interval_inverse_transform_absent_effect c t h tv lv uv :
  klass c <> LessThan ->
  enforced c = true -> _inv_transform c = None ->
  cells h !! t = Some tv ->
  cells h !! lower_bound c = Some lv ->
  cells h !! upper_bound c = Some uv ->
  lower_bound c <> upper_bound c ->
  t <> lower_bound c -> t <> upper_bound c ->
  length lv = 1%nat -> length uv = 1%nat ->
  exists h',
    inverse_transform c t h = (Raise (AttributeError "_inv_transform"), h')
    /\ cells h' !! lower_bound c = Some (adjusted_lower lv)
    /\ cells h' !! upper_bound c = Some (adjusted_upper uv)
    /\ cells h' !! t = Some tv.
Proof.
  intros K En N Ht Hl Hu Nlu Ntl Ntu Ll Lu.
  rewrite inverse_transform_Interval by assumption.
  unfold Interval_inverse_transform. rewrite En. cbn [negb].
  step ((run_setitem_eq _ _ PInf (Fin 1) _ Hu)).
  fold (adjusted_upper uv).
  set (h1 := store (upper_bound c) (adjusted_upper uv) h).
  assert (U1 : cells h1 !! upper_bound c = Some (adjusted_upper uv))
    by eauto with heap.
  assert (L1 : cells h1 !! lower_bound c = Some lv) by eauto with heap.
  assert (T1 : cells h1 !! t = Some tv) by eauto with heap.
  step ((run_setitem_eq _ _ NInf (Fin 0) _ L1)).
  fold (adjusted_lower lv).
  set (h2 := store (lower_bound c) (adjusted_lower lv) h1).
  assert (L2 : cells h2 !! lower_bound c = Some (adjusted_lower lv))
    by eauto with heap.
  assert (U2 : cells h2 !! upper_bound c = Some (adjusted_upper uv))
    by eauto with heap.
  assert (T2 : cells h2 !! t = Some tv) by eauto with heap.
  destruct (broadcast_scalar_r xsub tv (adjusted_lower lv)) as (d & Hd & _).
  { unfold adjusted_lower, masked_assign. now rewrite length_map. }
  destruct (broadcast_scalar_r xdiv d (adjusted_upper uv)) as (q & Hq & _).
  { unfold adjusted_upper, masked_assign. now rewrite length_map. }
  unfold t_sub, t_div.
  step ((run_binop _ _ _ _ _ _ _ T2 L2 Hd)).
  rewrite (run_bind_ok _ _ _ _ _
             (run_binop _ _ _ _ _ _ _ (lookup_push_new h2 d)
                (lookup_push_old _ d _ _ U2) Hq)).
  eexists. split.
  - apply run_bind_raise, getattr_inv_transform_absent. assumption.
  - repeat split; repeat apply lookup_push_old; assumption.
Qed.

(** C4. [inverse_transform] changes the stored bounds: after [c =
    Positive()] the stored upper bound is [+inf] and [c.check(tensor(3.))]
    is true; the call [c.inverse_transform(tensor(3.))] raises, and leaves 1
    in the stored upper bound, so that [c.check(tensor(3.))] is then
    false. *)
Theorem inverse_transform_overwrites_stored_bounds h :
  exists c h1 raw h2 h3,
    new_Positive h = (Ok c, h1)
    /\ torch_tensor (Fin 3) h1 = (Ok raw, h2)
    /\ cells h2 !! upper_bound c = Some [PInf]
    /\ check c raw h2 = (Ok true, h2)
    /\ inverse_transform c raw h2
       = (Raise (AttributeError "_inv_transform"), h3)
    /\ cells h3 !! upper_bound c = Some [Fin 1]
    /\ check c raw h3 = (Ok false, h3).
Proof.
  destruct (Interval_init_ok h Positive (PyFloat (Fin 0)) (PyFloat PInf)
              (Some softplus) inv_softplus [Fin 0] [PInf] eq_refl eq_refl eq_refl)
    as (c & h1 & E & K & T & N & _ & L & U & _).
  exists c, h1, (length (cells h1)), (push [Fin 3] h1).
  assert (L2 : cells (push [Fin 3] h1) !! lower_bound c = Some [Fin 0])
    by auto with heap.
  assert (U2 : cells (push [Fin 3] h1) !! upper_bound c = Some [PInf])
    by auto with heap.
  assert (T2 : cells (push [Fin 3] h1) !! length (cells h1) = Some [Fin 3])
    by auto with heap.
  assert (E03 : Rle_b 0 3 = true) by (apply Rle_b_true; lra).
  assert (E31 : Rle_b 3 1 = false) by (apply Rle_b_false; lra).
  destruct (Interval_inverse_transform_absent_effect c (length (cells h1))
              (push [Fin 3] h1) [Fin 3] [Fin 0] [PInf])
    as (h3 & E3 & L3 & U3 & T3); auto.
  - congruence.
  - unfold enforced. now rewrite T.
  - intros Eq. rewrite Eq in L. rewrite L in U. discriminate.
  - apply lookup_fresh_ne with [Fin 0]. exact L.
  - apply lookup_fresh_ne with [PInf]. exact U.
  - exists h3. repeat split; auto.
    + rewrite (run_check _ _ _ _ _ _ T2 L2 U2). cbn. now rewrite E03.
    + rewrite (run_check _ _ _ _ _ _ T3 L3 U3). cbn. now rewrite E31.
Qed.

(** * Further properties of the methods *)

(** ** What the methods leave unchanged *)

Lemma bind_inv {A B : Type} (c : M A) (k : A -> M B) h r h' :
  bind c k h = (r, h') ->
  (exists a h1, c h = (Ok a, h1) /\ k a h1 = (r, h'))
  \/ (exists e, c h = (Raise e, h') /\ r = Raise e).
Proof.
  unfold bind. destruct (c h) as [[a|e] h1]; intros H.
  - left. now exists a, h1.
  - right. exists e. now injection H as <- <-.
Qed.

Lemma store_push h v w : store (length (cells h)) w (push v h) = push w h.
Proof.
  unfold store, push. cbn [cells next_id]. f_equal.
  rewrite insert_app_r_alt by lia. now rewrite Nat.sub_diag.
Qed.

(** A command that either raises and leaves the store as it is, or returns
    the address of one new tensor. *)
Lemma read_inv l h r h' :
  read l h = (r, h') ->
  h' = h /\ ((exists v, r = Ok v /\ cells h !! l = Some v)
             \/ (r = Raise InvalidReference /\ cells h !! l = None)).
Proof.
  unfold read. destruct (cells h !! l) as [v|]; intros [= <- <-];
    (split; [reflexivity|]); [left; now exists v | now right].
Qed.

Lemma call_inv f t h r h' :
  call f t h = (r, h') ->
  (exists e, r = Raise e /\ h' = h)
  \/ (exists v, r = Ok (length (cells h)) /\ h' = push v h).
Proof.
  unfold call, bind, read, alloc. destruct (cells h !! t) as [x|];
    intros [= <- <-]; [right | left]; eauto.
Qed.

Lemma t_neg_inv t h r h' :
  t_neg t h = (r, h') ->
  (exists e, r = Raise e /\ h' = h)
  \/ (exists v, r = Ok (length (cells h)) /\ h' = push v h).
Proof.
  unfold t_neg, bind, read, alloc. destruct (cells h !! t) as [x|];
    intros [= <- <-]; [right | left]; eauto.
Qed.

Lemma binop_inv f a b h r h' :
  binop f a b h = (r, h') ->
  (exists e, r = Raise e /\ h' = h)
  \/ (exists v, r = Ok (length (cells h)) /\ h' = push v h).
Proof.
  unfold binop, bind, read, alloc, lift.
  destruct (cells h !! a) as [x|]; [|intros [= <- <-]; left; eauto].
  destruct (cells h !! b) as [y|]; [|intros [= <- <-]; left; eauto].
  destruct (broadcast f x y) as [v|e]; intros [= <- <-]; [right | left]; eauto.
Qed.

(** [x = t.clone(); x[x == v] = w; ...]: the assignment is to the clone. *)
Lemma clone_setitem_inv {A : Type} t v w (k : loc -> M A) h r h' :
  (x <- clone t ;; setitem_eq x v w ;;; k x) h = (r, h') ->
  (exists e, r = Raise e /\ h' = h)
  \/ (exists y, cells h !! t = Some y
                /\ k (length (cells h)) (push (masked_assign v w y) h) = (r, h')).
Proof.
  unfold clone, setitem_eq, write, bind, read, alloc.
  destruct (cells h !! t) as [y|] eqn:E.
  - cbn beta iota. rewrite lookup_push_new. cbn beta iota.
    rewrite lookup_push_new. cbn beta iota. rewrite store_push.
    intros H. right. now exists y.
  - intros [= <- <-]. left. eauto.
Qed.

Lemma frame_of_outcome h h1 (r : outcome nat) h' :
  frame h h1 ->
  (exists e, r = Raise e /\ h' = h1)
  \/ (exists v, r = Ok (length (cells h1)) /\ h' = push v h1) ->
  frame h h'.
Proof.
  intros F [(e & _ & ->) | (v & _ & ->)]; [exact F|].
  eapply frame_trans; [exact F | apply frame_push].
Qed.

Lemma Interval_transform_frame c t h r h' :
  Interval_transform c t h = (r, h') -> frame h h'.
Proof.
  unfold Interval_transform. destruct (enforced c); cbn [negb].
  2: { unfold ret. intros [= <- <-]. apply frame_refl. }
  intros H. apply bind_inv in H as [(a & h1 & E & H) | (e & E & _)].
  2: { unfold py_call in E. destruct (_transform c).
       - apply call_inv in E as [(? & _ & ->) | (? & [=] & _)]. apply frame_refl.
       - unfold raise in E. injection E as _ <-. apply frame_refl. }
  assert (F1 : frame h h1).
  { unfold py_call in E. destruct (_transform c); [|discriminate].
    eapply frame_of_outcome; [apply frame_refl | eapply call_inv; exact E]. }
  apply clone_setitem_inv in H as [(e & _ & ->) | (uv & _ & H)]; [exact F1|].
  apply clone_setitem_inv in H as [(e & _ & ->) | (lv & _ & H)].
  { eapply frame_trans; [exact F1 | apply frame_push]. }
  assert (F3 : frame h (push (masked_assign NInf (Fin 0) lv)
                          (push (masked_assign PInf (Fin 1) uv) h1))).
  { eapply frame_trans; [exact F1|]. eapply frame_trans; apply frame_push. }
  apply bind_inv in H as [(p & h4 & E4 & H) | (e & E4 & _)].
  2: { apply binop_inv in E4 as [(? & _ & ->) | (? & [=] & _)]. exact F3. }
  assert (F4 : frame h h4).
  { eapply frame_of_outcome; [exact F3 | eapply binop_inv; exact E4]. }
  apply bind_inv in H as [(q & h5 & E5 & H) | (e & E5 & _)].
  - unfold ret in H. injection H as <- <-.
    eapply frame_of_outcome; [exact F4 | eapply binop_inv; exact E5].
  - eapply frame_of_outcome; [exact F4 | eapply binop_inv; exact E5].
Qed.

Lemma LessThan_transform_frame (tr : constraint -> loc -> M loc) c t h r h' :
  (forall t1 h1 r1 h1', tr c t1 h1 = (r1, h1') -> frame h1 h1') ->
  LessThan_transform tr c t h = (r, h') -> frame h h'.
Proof.
  intros IH. unfold LessThan_transform. destruct (enforced c); cbn [negb].
  2: { unfold ret. intros [= <- <-]. apply frame_refl. }
  intros H. apply bind_inv in H as [(nt & h1 & E1 & H) | (e & E1 & _)].
  2: { eapply frame_of_outcome; [apply frame_refl | eapply t_neg_inv; exact E1]. }
  assert (F1 : frame h h1).
  { eapply frame_of_outcome; [apply frame_refl | eapply t_neg_inv; exact E1]. }
  apply bind_inv in H as [(y & h2 & E2 & H) | (e & E2 & _)].
  2: { eapply frame_trans; [exact F1 | eapply IH; exact E2]. }
  assert (F2 : frame h h2).
  { eapply frame_trans; [exact F1 | eapply IH; exact E2]. }
  apply bind_inv in H as [(z & h3 & E3 & H) | (e & E3 & _)].
  2: { eapply frame_of_outcome; [exact F2 | eapply t_neg_inv; exact E3]. }
  assert (F3 : frame h h3).
  { eapply frame_of_outcome; [exact F2 | eapply t_neg_inv; exact E3]. }
  apply bind_inv in H as [(w & h4 & E4 & H) | (e & E4 & _)].
  - unfold ret in H. injection H as <- <-.
    eapply frame_of_outcome; [exact F3 | eapply binop_inv; exact E4].
  - eapply frame_of_outcome; [exact F3 | eapply binop_inv; exact E4].
Qed.

Lemma transform_frame depth c t h r h' :
  transform depth c t h = (r, h') -> frame h h'.
Proof.
  revert t h r h'. induction depth as [|d IH]; intros t h r h'; cbn [transform].
  - unfold raise. intros [= <- <-]. apply frame_refl.
  - destruct (klass c);
      try apply Interval_transform_frame.
    apply LessThan_transform_frame. exact IH.
Qed.

(** X1. [transform] never changes a tensor that exists when it is called,
    whatever the class of the constraint, the argument and the outcome
    (a result or an exception): the bounds it adjusts are clones. *)
Theorem transform_preserves_store depth c t h :
  frame h (snd (transform depth c t h)).
Proof.
  destruct (transform depth c t h) as [r h'] eqn:E.
  exact (transform_frame _ _ _ _ _ _ E).
Qed.

(** ** The item assignments of [Interval.inverse_transform] *)

(** After the two item assignments, [Interval.inverse_transform] only
    allocates: whatever the argument and the outcome, the final store
    extends the one in which the two stored bounds hold their adjusted
    values. *)
Lemma Interval_inverse_transform_store c t h lv uv r h' :
  enforced c = true ->
  cells h !! lower_bound c = Some lv ->
  cells h !! upper_bound c = Some uv ->
  lower_bound c <> upper_bound c ->
  Interval_inverse_transform c t h = (r, h') ->
  frame (store (lower_bound c) (adjusted_lower lv)
           (store (upper_bound c) (adjusted_upper uv) h)) h'.
Proof.
  intros En Hl Hu Nlu. unfold Interval_inverse_transform.
  rewrite En. cbn [negb].
  step ((run_setitem_eq _ _ PInf (Fin 1) _ Hu)).
  fold (adjusted_upper uv).
  set (h1 := store (upper_bound c) (adjusted_upper uv) h).
  assert (L1 : cells h1 !! lower_bound c = Some lv) by eauto with heap.
  step ((run_setitem_eq _ _ NInf (Fin 0) _ L1)).
  fold (adjusted_lower lv).
  set (h2 := store (lower_bound c) (adjusted_lower lv) h1).
  intros H. apply bind_inv in H as [(d & h3 & E3 & H) | (e & E3 & _)].
  2: { eapply frame_of_outcome; [apply frame_refl | eapply binop_inv; exact E3]. }
  assert (F3 : frame h2 h3).
  { eapply frame_of_outcome; [apply frame_refl | eapply binop_inv; exact E3]. }
  apply bind_inv in H as [(q & h4 & E4 & H) | (e & E4 & _)].
  2: { eapply frame_of_outcome; [exact F3 | eapply binop_inv; exact E4]. }
  assert (F4 : frame h2 h4).
  { eapply frame_of_outcome; [exact F3 | eapply binop_inv; exact E4]. }
  apply bind_inv in H as [(g & h5 & E5 & H) | (e & E5 & _)].
  2: { unfold getattr_inv_transform, ret, raise in E5.
       destruct (_inv_transform c); injection E5 as _ <-; exact F4. }
  assert (h5 = h4) as ->.
  { unfold getattr_inv_transform, ret, raise in E5.
    destruct (_inv_transform c); now injection E5 as _ <-. }
  apply bind_inv in H as [(y & h6 & E6 & H) | (e & E6 & _)].
  - unfold ret in H. injection H as <- <-.
    eapply frame_of_outcome; [exact F4 | eapply call_inv; exact E6].
  - eapply frame_of_outcome; [exact F4 | eapply call_inv; exact E6].
Qed.

Lemma adjusted_upper_idem uv : adjusted_upper (adjusted_upper uv) = adjusted_upper uv.
Proof.
  unfold adjusted_upper, masked_assign. rewrite map_map. apply map_ext.
  intros e. destruct (xeqb e PInf) eqn:E; [reflexivity | now rewrite E].
Qed.

Lemma adjusted_lower_idem lv : adjusted_lower (adjusted_lower lv) = adjusted_lower lv.
Proof.
  unfold adjusted_lower, masked_assign. rewrite map_map. apply map_ext.
  intros e. destruct (xeqb e NInf) eqn:E; [reflexivity | now rewrite E].
Qed.

(** X2. [inverse_transform] of an enforced constraint of a class that
    inherits [Interval.inverse_transform] overwrites the two stored bounds
    with their adjusted values ([+inf] replaced by 1 in the upper bound,
    [-inf] by 0 in the lower bound) whatever its argument and whether it
    returns or raises; every other tensor keeps its content. *)
Theorem inverse_transform_adjusts_stored_bounds c t h lv uv :
  klass c <> LessThan -> enforced c = true ->
  cells h !! lower_bound c = Some lv ->
  cells h !! upper_bound c = Some uv ->
  lower_bound c <> upper_bound c ->
  let h' := snd (inverse_transform c t h) in
  cells h' !! lower_bound c = Some (adjusted_lower lv)
  /\ cells h' !! upper_bound c = Some (adjusted_upper uv)
  /\ (forall l v, l <> lower_bound c -> l <> upper_bound c ->
                  cells h !! l = Some v -> cells h' !! l = Some v).
Proof.
  intros K En Hl Hu Nlu h'. subst h'.
  rewrite inverse_transform_Interval by assumption.
  destruct (Interval_inverse_transform c t h) as [r h'] eqn:E. cbn [snd].
  pose proof (Interval_inverse_transform_store c t h lv uv r h' En Hl Hu Nlu E)
    as F.
  split; [|split].
  - apply F. eapply lookup_store_eq. eauto with heap.
  - apply F. apply lookup_store_old; [congruence|].
    eapply lookup_store_eq. exact Hu.
  - intros l v N1 N2 Hv. apply F.
    apply lookup_store_old; [congruence|].
    apply lookup_store_old; [congruence|]. exact Hv.
Qed.

Lemma inverse_transform_adjusts_stored_bounds_witness :
  let c := mkConstraint 0 GreaterThan 0 1 (Some softplus) None in
  let h := mkHeap [[NInf]; [PInf]; [Fin 5]] 1 in
  let h' := snd (inverse_transform c 2 h) in
  cells h' !! 0%nat = Some [Fin 0] /\ cells h' !! 1%nat = Some [Fin 1].
Proof.
  intros c h h'.
  destruct (inverse_transform_adjusts_stored_bounds c 2%nat h [NInf] [PInf])
    as (L & U & _); try reflexivity; try discriminate.
  split; [exact L | exact U].
Defined.

(** X3. What [transform] computes does not depend on an earlier
    [inverse_transform]: the bounds [inverse_transform] leaves in the store
    are the adjusted ones, which [transform] adjusts again to the same
    values.  ([check], which reads the stored bounds as they are, does
    change.) *)
Theorem transform_after_inverse_transform depth c t raw h f x lv uv p q :
  klass c <> LessThan -> _transform c = Some f ->
  cells h !! raw = Some x ->
  cells h !! lower_bound c = Some lv ->
  cells h !! upper_bound c = Some uv ->
  lower_bound c <> upper_bound c ->
  raw <> lower_bound c -> raw <> upper_bound c ->
  broadcast xmul (map (apply_elem f) x) (adjusted_upper uv) = Ok p ->
  broadcast xadd p (adjusted_lower lv) = Ok q ->
  (exists y h1,
      transform (S depth) c raw h = (Ok y, h1) /\ cells h1 !! y = Some q)
  /\ (exists y h1,
      transform (S depth) c raw (snd (inverse_transform c t h)) = (Ok y, h1)
      /\ cells h1 !! y = Some q).
Proof.
  intros K T Hx Hl Hu Nlu Nrl Nru Hp Hq.
  rewrite !transform_Interval by assumption.
  assert (En : enforced c = true) by (unfold enforced; now rewrite T).
  split.
  - destruct (run_Interval_transform c raw h f x lv uv p q T Hx Hl Hu Hp Hq)
      as (y & h1 & E & V & _).
    now exists y, h1.
  - rewrite inverse_transform_Interval by assumption.
    destruct (Interval_inverse_transform c t h) as [r h'] eqn:E. cbn [snd].
    pose proof (Interval_inverse_transform_store c t h lv uv r h' En Hl Hu Nlu E)
      as F.
    assert (L' : cells h' !! lower_bound c = Some (adjusted_lower lv)).
    { apply F. eapply lookup_store_eq. eauto with heap. }
    assert (U' : cells h' !! upper_bound c = Some (adjusted_upper uv)).
    { apply F. apply lookup_store_old; [congruence|].
      eapply lookup_store_eq. exact Hu. }
    assert (X' : cells h' !! raw = Some x).
    { apply F. apply lookup_store_old; [congruence|].
      apply lookup_store_old; [congruence|]. exact Hx. }
    destruct (run_Interval_transform c raw h' f x
                (adjusted_lower lv) (adjusted_upper uv) p q T X' L' U')
      as (y & h1 & E1 & V & _).
    + fold (adjusted_upper (adjusted_upper uv)).
      now rewrite adjusted_upper_idem.
    + fold (adjusted_lower (adjusted_lower lv)).
      now rewrite adjusted_lower_idem.
    + now exists y, h1.
Qed.

Lemma transform_after_inverse_transform_witness :
  let c := mkConstraint 0 GreaterThan 0 1 (Some softplus) None in
  let h := mkHeap [[Fin 2]; [PInf]; [Fin 5]] 1 in
  exists y h1,
    transform 1 c 2 (snd (inverse_transform c 2 h)) = (Ok y, h1)
    /\ cells h1 !! y
       = Some [xadd (xmul (xsoftplus (Fin 5)) (Fin 1)) (Fin 2)].
Proof.
  intros c h.
  destruct (transform_after_inverse_transform 0 c 2%nat 2%nat h softplus
              [Fin 5] [Fin 2] [PInf]
              [xmul (xsoftplus (Fin 5)) (Fin 1)]
              [xadd (xmul (xsoftplus (Fin 5)) (Fin 1)) (Fin 2)])
    as [_ H]; try reflexivity; try discriminate.
  exact H.
Defined.

(** ** [check] of what [transform] returns *)

Lemma compatible_scalar_r tv u : compatible tv [u] = true.
Proof. destruct tv as [|x [|x' tv]]; reflexivity. Qed.

Lemma check_scalar_bounds c t h tv l u :
  cells h !! t = Some tv ->
  cells h !! lower_bound c = Some [l] ->
  cells h !! upper_bound c = Some [u] ->
  exists b,
    check c t h = (Ok b, h)
    /\ (b = true <-> Forall (fun e => xle l e /\ xle e u) tv).
Proof.
  intros Ht Hl Hu.
  destruct (check_within c t h tv [l] [u] Ht Hl Hu
              (compatible_scalar_r _ _) (compatible_scalar_r _ _))
    as (b & E & Hb).
  exists b. split; [exact E|]. rewrite Hb, !pairs_scalar_r, !Forall_map.
  cbn [fst snd]. rewrite Forall_and. tauto.
Qed.

Lemma xmul_PInf_1 : xmul PInf (Fin 1) = PInf.
Proof.
  simpl.
  assert (E1 : Req_b 1 0 = false) by (apply Req_b_false; lra).
  assert (E2 : Rlt_b 0 1 = true) by (apply Rlt_b_true; lra).
  now rewrite E1, E2.
Qed.

Lemma softplus_shift_within l e :
  e <> NaN ->
  let v := xadd (xmul (xsoftplus e) (Fin 1)) (Fin l) in
  xle (Fin l) v /\ xle v PInf.
Proof.
  intros N. destruct e as [| |r|]; [congruence| | |].
  - cbn. split; [lra | exact I].
  - destruct (xsoftplus_finite_nonneg r) as (s & -> & P). cbn.
    split; [lra | exact I].
  - cbn [xsoftplus]. rewrite xmul_PInf_1. cbn. split; exact I.
Qed.

(** X4. For a lower-bounded constraint as [GreaterThan] and [Positive]
    build it (softplus, a finite scalar lower bound, upper bound [+inf]),
    [transform] of a tensor without NaN returns a tensor that [check]
    accepts. *)
Theorem lower_bounded_transform_satisfies_check depth c raw h x l :
  klass c <> LessThan -> _transform c = Some softplus ->
  cells h !! raw = Some x ->
  cells h !! lower_bound c = Some [Fin l] ->
  cells h !! upper_bound c = Some [PInf] ->
  Forall (fun e => e <> NaN) x ->
  exists y h1,
    transform (S depth) c raw h = (Ok y, h1)
    /\ check c y h1 = (Ok true, h1).
Proof.
  intros K T Hx Hl Hu Hn.
  rewrite transform_Interval by assumption.
  destruct (run_Interval_transform c raw h softplus x [Fin l] [PInf]
              (map (fun e => xmul e (Fin 1)) (map xsoftplus x))
              (map (fun e => xadd e (Fin l))
                 (map (fun e => xmul e (Fin 1)) (map xsoftplus x)))
              T Hx Hl Hu)
    as (y & h1 & E & V & F & _).
  - apply broadcast_scalar_r_eq.
  - apply broadcast_scalar_r_eq.
  - exists y, h1. split; [exact E|].
    destruct (check_scalar_bounds c y h1 _ (Fin l) PInf V (F _ _ Hl) (F _ _ Hu))
      as (b & Eb & Hb).
    rewrite Eb. f_equal. f_equal. apply Hb.
    rewrite !Forall_map. eapply Forall_impl; [exact Hn|].
    intros e Ne. apply (softplus_shift_within l e Ne).
Qed.

Lemma lower_bounded_transform_satisfies_check_witness :
  let c := mkConstraint 0 GreaterThan 0 1 (Some softplus) None in
  let h := mkHeap [[Fin 2]; [PInf]; [Fin (-3); NInf; PInf]] 1 in
  exists y h1, transform 1 c 2 h = (Ok y, h1) /\ check c y h1 = (Ok true, h1).
Proof.
  intros c h.
  apply (lower_bounded_transform_satisfies_check 0 c 2%nat h
           [Fin (-3); NInf; PInf] 2);
    try reflexivity; try discriminate.
  repeat constructor; discriminate.
Defined.

(** ** The range of [Interval.transform] with sigmoid *)

Lemma sigmoid_range r : 0 < / (1 + exp (- r)) < 1.
Proof.
  pose proof (exp_pos (- r)) as P. split.
  - apply Rinv_0_lt_compat. lra.
  - rewrite <- Rinv_1 at 2. apply Rinv_1_lt_contravar; lra.
Qed.

(** The value of [Interval.transform] on a constraint with sigmoid and two
    finite scalar bounds. *)
Lemma run_Interval_transform_sigmoid c raw h x l u :
  _transform c = Some sigmoid ->
  cells h !! raw = Some x ->
  cells h !! lower_bound c = Some [Fin l] ->
  cells h !! upper_bound c = Some [Fin u] ->
  exists y h1,
    Interval_transform c raw h = (Ok y, h1)
    /\ cells h1 !! y
       = Some (map (fun e => xadd (xmul (xsigmoid e) (Fin u)) (Fin l)) x)
    /\ frame h h1.
Proof.
  intros T Hx Hl Hu.
  destruct (run_Interval_transform c raw h sigmoid x [Fin l] [Fin u]
              (map (fun e => xmul e (Fin u)) (map xsigmoid x))
              (map (fun e => xadd e (Fin l))
                 (map (fun e => xmul e (Fin u)) (map xsigmoid x)))
              T Hx Hl Hu)
    as (y & h1 & E & V & F & _).
  - apply broadcast_scalar_r_eq.
  - apply broadcast_scalar_r_eq.
  - exists y, h1. rewrite !map_map in V. now repeat split.
Qed.

Lemma sigmoid_large l u r :
  0 < l -> 0 < u -> - ln (l / (2 * u)) <= r ->
  u + l / 2 <= / (1 + exp (- r)) * u + l.
Proof.
  intros Pl Pu Hr.
  assert (Q : 0 < l / (2 * u)) by (apply Rdiv_lt_0_compat; lra).
  assert (E : exp (- r) <= l / (2 * u)).
  { rewrite <- (exp_ln (l / (2 * u))) by exact Q.
    destruct (Rle_lt_or_eq_dec _ _ Hr) as [Lt | Eq].
    - left. apply exp_increasing. lra.
    - right. f_equal. lra. }
  pose proof (exp_pos (- r)) as P.
  pose proof (sigmoid_range r) as [S0 S1].
  set (s := / (1 + exp (- r))) in *.
  assert (I : s * (1 + exp (- r)) = 1) by (unfold s; apply Rinv_l; lra).
  assert (E2 : exp (- r) * u <= l / 2).
  { apply Rmult_le_compat_r with (r := u) in E; [|lra].
    replace (l / (2 * u) * u) with (l / 2) in E by (field; lra). exact E. }
  assert (E3 : s * (exp (- r) * u) <= s * (l / 2))
    by (apply Rmult_le_compat_l; lra).
  assert (E4 : s * (l / 2) <= l / 2) by nra.
  nra.
Qed.

(** X6. [Interval(l, u).transform] with sigmoid leaves the interval when
    the lower bound is positive and not negligible beside the upper bound
    (here: at least a thousandth of it, so that no rounding of the sum can
    absorb it; both bounds of ordinary magnitude, between a millionth and a
    million, far from overflow and underflow): for such scalar bounds
    [l < u] every large enough number is mapped to a value above [u], by at
    least a quarter of [l], and [check] of the same constraint rejects
    it. *)
Theorem Interval_transform_exceeds_upper_bound depth c h l u :
  klass c <> LessThan -> _transform c = Some sigmoid ->
  cells h !! lower_bound c = Some [Fin l] ->
  cells h !! upper_bound c = Some [Fin u] ->
  / 1000000 <= l -> l < u -> u <= 1000 * l -> u <= 1000000 ->
  exists r0, forall r raw,
    r0 <= r -> cells h !! raw = Some [Fin r] ->
    exists y h1 v,
      transform (S depth) c raw h = (Ok y, h1)
      /\ cells h1 !! y = Some [Fin v]
      /\ u + l / 4 <= v
      /\ check c y h1 = (Ok false, h1).
Proof.
  intros K T Hl Hu Ml Hlu Hul Mu.
  assert (Pl : 0 < l) by lra.
  assert (Pu : 0 < u) by lra.
  exists (- ln (l / (2 * u))).
  intros r raw Hr Hx.
  rewrite transform_Interval by assumption.
  destruct (run_Interval_transform_sigmoid c raw h [Fin r] l u T Hx Hl Hu)
    as (y & h1 & E & V & F).
  pose proof (sigmoid_large l u r Pl Pu Hr) as G.
  exists y, h1, (/ (1 + exp (- r)) * u + l).
  split; [exact E|]. split; [exact V|]. split; [lra|].
  destruct (check_scalar_bounds c y h1 _ (Fin l) (Fin u) V (F _ _ Hl) (F _ _ Hu))
    as (b & Eb & Hb).
  rewrite Eb. f_equal. f_equal.
  destruct b; [|reflexivity]. exfalso.
  destruct Hb as [Hb _]. specialize (Hb eq_refl).
  apply Forall_inv in Hb. destruct Hb as [_ Hb]. cbn in Hb. lra.
Qed.

Lemma Interval_transform_exceeds_upper_bound_witness :
  let c := mkConstraint 0 Interval 0 1 (Some sigmoid) None in
  let h := mkHeap [[Fin 2]; [Fin 10]] 1 in
  exists r0, forall r raw,
    r0 <= r -> cells h !! raw = Some [Fin r] ->
    exists y h1 v,
      transform 1 c raw h = (Ok y, h1)
      /\ cells h1 !! y = Some [Fin v]
      /\ 10 + 2 / 4 <= v
      /\ check c y h1 = (Ok false, h1).
Proof.
  intros c h.
  apply (Interval_transform_exceeds_upper_bound 0 c h 2 10);
    try reflexivity; try discriminate; lra.
Defined.

(** ** The round trip when the inverse is stored *)

Lemma length_push v h : length (cells (push v h)) = S (length (cells h)).
Proof. unfold push. cbn [cells]. rewrite length_app. cbn. lia. Qed.

(** The tensor an enforced [Interval.transform] returns is a new one. *)
Lemma Interval_transform_result_new c t h y h' :
  enforced c = true ->
  Interval_transform c t h = (Ok y, h') -> (length (cells h) <= y)%nat.
Proof.
  intros En. unfold Interval_transform. rewrite En. cbn [negb].
  intros H. apply bind_inv in H as [(a & h1 & E & H) | (e & _ & [=])].
  assert (L1 : (length (cells h) <= length (cells h1))%nat).
  { unfold py_call in E. destruct (_transform c); [|discriminate].
    apply call_inv in E as [(? & [=] & _) | (v & _ & ->)].
    rewrite length_push. lia. }
  apply clone_setitem_inv in H as [(e & [=] & _) | (uv & _ & H)].
  apply clone_setitem_inv in H as [(e & [=] & _) | (lv & _ & H)].
  apply bind_inv in H as [(p & h4 & E4 & H) | (e & _ & [=])].
  apply binop_inv in E4 as [(? & [=] & _) | (v4 & _ & ->)].
  apply bind_inv in H as [(q & h5 & E5 & H) | (e & _ & [=])].
  apply binop_inv in E5 as [(? & [=] & _) | (v5 & [= ->] & ->)].
  unfold ret in H. injection H as <- _.
  rewrite !length_app. lia.
Qed.

Lemma lookup_new_ne h l v y :
  cells h !! l = Some v -> (length (cells h) <= y)%nat -> y <> l.
Proof. intros H L ->. apply lookup_lt_Some in H. lia. Qed.

(** The round trip of [Interval.transform] and [Interval.inverse_transform]
    on scalar bounds, elementwise: [l'] and [u'] are the adjusted bounds. *)
Lemma run_round_trip_scalar_bounds c raw h f g x l u :
  _transform c = Some f -> _inv_transform c = Some g ->
  cells h !! raw = Some x ->
  cells h !! lower_bound c = Some [l] ->
  cells h !! upper_bound c = Some [u] ->
  lower_bound c <> upper_bound c ->
  let l' := if xeqb l NInf then Fin 0 else l in
  let u' := if xeqb u PInf then Fin 1 else u in
  exists z h',
    (y <- Interval_transform c raw ;; Interval_inverse_transform c y) h
    = (Ok z, h')
    /\ cells h' !! z
       = Some (map (fun e =>
                 apply_elem g
                   (xdiv (xsub (xadd (xmul (apply_elem f e) u') l') l') u')) x).
Proof.
  intros T G Hx Hl Hu Nlu l' u'.
  assert (En : enforced c = true) by (unfold enforced; now rewrite T).
  destruct (run_Interval_transform c raw h f x [l] [u]
              (map (fun e => xmul e u') (map (apply_elem f) x))
              (map (fun e => xadd e l')
                 (map (fun e => xmul e u') (map (apply_elem f) x)))
              T Hx Hl Hu)
    as (y & h1 & E & V & F & _).
  { apply broadcast_scalar_r_eq. }
  { apply broadcast_scalar_r_eq. }
  step E.
  pose proof (Interval_transform_result_new c raw h y h1 En E) as Ny.
  destruct (run_Interval_inverse_transform c y h1 g _ [l] [u]
              (map (apply_elem g)
                 (map (fun e => xdiv e u')
                    (map (fun e => xsub e l')
                       (map (fun e => xadd e l')
                          (map (fun e => xmul e u') (map (apply_elem f) x))))))
              En G V (F _ _ Hl) (F _ _ Hu) Nlu)
    as (z & h' & E' & V' & _).
  - eapply lookup_new_ne; eassumption.
  - eapply lookup_new_ne; eassumption.
  - unfold inverse_affine, adjusted_lower, adjusted_upper, masked_assign.
    cbn [map]. fold l' u'. now rewrite !broadcast_scalar_r_eq.
  - exists z, h'. split; [exact E'|]. rewrite V', !map_map. reflexivity.
Qed.

(** X7. On an enforced constraint of a class that inherits the two
    methods of [Interval], with scalar bounds held in two tensors, the
    round trip [inverse_transform(transform(raw))] returns a value exactly
    when an inverse is stored on the object; otherwise it raises the
    [AttributeError] of the missing attribute.  The value returned is
    [inv(((f(e) * upper' + lower') - lower') / upper')] for every element
    [e] of [raw], the operations in the order in which the two methods do
    them, on the adjusted bounds [upper'] and [lower'].  The sum and the
    difference are not cancelled: on floats the sum can absorb [f(e)], and
    the result then is not [e]. *)
Theorem round_trip_returns_iff_inverse_stored depth c raw h f x l u :
  klass c <> LessThan -> _transform c = Some f ->
  cells h !! raw = Some x ->
  cells h !! lower_bound c = Some [l] ->
  cells h !! upper_bound c = Some [u] ->
  lower_bound c <> upper_bound c ->
  let l' := if xeqb l NInf then Fin 0 else l in
  let u' := if xeqb u PInf then Fin 1 else u in
  match _inv_transform c with
  | Some g =>
      exists z h',
        (y <- transform (S depth) c raw ;; inverse_transform c y) h = (Ok z, h')
        /\ cells h' !! z
           = Some (map (fun e =>
                     apply_elem g
                       (xdiv (xsub (xadd (xmul (apply_elem f e) u') l') l') u'))
                     x)
  | None =>
      exists h',
        (y <- transform (S depth) c raw ;; inverse_transform c y) h
        = (Raise (AttributeError "_inv_transform"), h')
  end.
Proof.
  intros K T Hx Hl Hu Nlu l' u'.
  destruct (_inv_transform c) as [g|] eqn:G.
  - rewrite transform_Interval by assumption.
    destruct (run_round_trip_scalar_bounds c raw h f g x l u T G Hx Hl Hu Nlu)
      as (z & h' & E & V).
    exists z, h'. split; [|exact V].
    rewrite <- E. unfold bind.
    destruct (Interval_transform c raw h) as [[y|e] h1]; [|reflexivity].
    now rewrite inverse_transform_Interval by assumption.
  - apply round_trip_body_attribute_error with f x [l] [u]; auto.
Qed.

Lemma round_trip_returns_iff_inverse_stored_witness :
  let c := mkConstraint 0 GreaterThan 0 1 (Some softplus) (Some inv_softplus) in
  let h := mkHeap [[Fin 2]; [PInf]; [Fin 5]] 1 in
  exists z h',
    (y <- transform 1 c 2 ;; inverse_transform c y) h = (Ok z, h')
    /\ cells h' !! z
       = Some [xinv_softplus
                 (xdiv (xsub (xadd (xmul (xsoftplus (Fin 5)) (Fin 1)) (Fin 2))
                          (Fin 2)) (Fin 1))].
Proof.
  intros c h.
  apply (round_trip_returns_iff_inverse_stored 0 c 2%nat h softplus
           [Fin 5] (Fin 2) PInf);
    try reflexivity; discriminate.
Defined.

(** ** [LessThan] *)

Lemma xneg_xsub a b : xneg (xsub a b) = xsub b a.
Proof.
  destruct a as [| |x|], b as [| |y|]; cbn; try reflexivity.
  f_equal. lra.
Qed.

(** X9. [LessThan.inverse_transform] on a constraint whose inverse [g] is
    stored and whose upper bound is a scalar [u] returns a new tensor with
    the elements [-g(u - e)], for [e] the elements of its argument; the
    lower bound is not read, and no existing tensor changes (unlike
    [Interval.inverse_transform], it does no item assignment). *)
Theorem LessThan_inverse_transform_mirrors c t h g tv u :
  klass c = LessThan -> enforced c = true -> _inv_transform c = Some g ->
  cells h !! t = Some tv ->
  cells h !! upper_bound c = Some [u] ->
  exists z h',
    inverse_transform c t h = (Ok z, h')
    /\ cells h' !! z = Some (map (fun e => xneg (apply_elem g (xsub u e))) tv)
    /\ frame h h'.
Proof.
  intros K En G Ht Hu. unfold inverse_transform. rewrite K.
  unfold LessThan_inverse_transform. rewrite En. cbn [negb].
  unfold t_sub.
  step ((run_binop xsub _ _ _ _ _ _ Ht Hu (broadcast_scalar_r_eq _ _ _))).
  unfold getattr_inv_transform. rewrite G.
  rewrite (run_bind_ok (ret g) _ _ g _ eq_refl).
  step ((run_t_neg _ _ _ (lookup_push_new _ _))).
  step ((run_call g _ _ _ (lookup_push_new _ _))).
  step ((run_t_neg _ _ _ (lookup_push_new _ _))).
  eexists _, _. split; [reflexivity|]. split.
  - rewrite lookup_push_new. f_equal. rewrite !map_map.
    apply map_ext. intros e. now rewrite xneg_xsub.
  - repeat (eapply frame_trans; [|apply frame_push]). apply frame_refl.
Qed.

Lemma LessThan_inverse_transform_mirrors_witness :
  let c := mkConstraint 0 LessThan 0 1 (Some softplus) (Some inv_softplus) in
  let h := mkHeap [[NInf]; [Fin 5]; [Fin 3; Fin 4]] 1 in
  exists z h',
    inverse_transform c 2 h = (Ok z, h')
    /\ cells h' !! z
       = Some [xneg (xinv_softplus (xsub (Fin 5) (Fin 3)));
               xneg (xinv_softplus (xsub (Fin 5) (Fin 4)))].
Proof.
  intros c h.
  destruct (LessThan_inverse_transform_mirrors c 2%nat h inv_softplus
              [Fin 3; Fin 4] (Fin 5))
    as (z & h' & E & V & _); try reflexivity.
  now exists z, h'.
Defined.

Lemma LessThan_transform_not_ok depth :
  forall c t h y h',
    klass c = LessThan -> enforced c = true ->
    transform depth c t h <> (Ok y, h').
Proof.
  induction depth as [|d IH]; intros c t h y h' K En; cbn [transform].
  - discriminate.
  - rewrite K. unfold LessThan_transform. rewrite En. cbn [negb].
    intros H. apply bind_inv in H as [(nt & h1 & _ & H) | (e & _ & [=])].
    apply bind_inv in H as [(r & h2 & E2 & _) | (e & _ & [=])].
    exact (IH _ _ _ _ _ K En E2).
Qed.

(** X10. [LessThan.transform] returns a value exactly when the constraint
    is not enforced, and then it returns its argument itself and leaves the
    store as it is: on every enforced [LessThan], whatever its transform,
    its bound, the argument and the depth of stack, the call raises. *)
Theorem LessThan_transform_returns_iff_not_enforced depth c t h :
  klass c = LessThan ->
  ((exists y h', transform (S depth) c t h = (Ok y, h'))
   <-> enforced c = false)
  /\ (enforced c = false -> transform (S depth) c t h = (Ok t, h)).
Proof.
  intros K.
  assert (U : enforced c = false -> transform (S depth) c t h = (Ok t, h)).
  { intros En. cbn [transform]. rewrite K. unfold LessThan_transform.
    now rewrite En. }
  split; [|exact U]. split.
  - intros (y & h' & E). destruct (enforced c) eqn:En; [|reflexivity].
    exfalso. exact (LessThan_transform_not_ok _ _ _ _ _ _ K En E).
  - intros En. exists t, h. now apply U.
Qed.

Lemma LessThan_transform_returns_iff_not_enforced_witness :
  let c := mkConstraint 0 LessThan 0 1 (Some torch_exp) (Some torch_log) in
  let h := mkHeap [[NInf]; [Fin 5]; [Fin 3]] 1 in
  ~ exists y h', transform 7 c 2 h = (Ok y, h').
Proof.
  intros c h H.
  destruct (LessThan_transform_returns_iff_not_enforced 6 c 2%nat h eq_refl)
    as [[D _] _].
  specialize (D H). discriminate D.
Defined.

(** ** Constraints that are not enforced *)

(** X11. A constraint constructed with [transform=None] (which the
    constructor accepts only when the bounds are not double sided) is not
    enforced, and its round trip [inverse_transform(transform(raw))]
    returns the tensor [raw] itself, for every class: no inverse is looked
    up and no tensor is allocated or changed by the two calls. *)
Theorem unenforced_round_trip depth h k lower upper inv r lv uv :
  arg_value h lower lv -> arg_value h upper uv ->
  double_sided lv uv None = false ->
  exists c h1,
    Interval_init k lower upper None inv h = (Ok c, h1)
    /\ enforced c = false
    /\ round_trip (S depth) (Interval_init k lower upper None inv) r h
       = (Ok (length (cells h1)), push [r] h1).
Proof.
  intros Hl Hu D.
  destruct (run_Interval_init h k lower upper None inv lv uv Hl Hu)
    as (lb & ub & h1 & _ & _ & _ & _ & E).
  rewrite D in E.
  exists (mkConstraint (next_id h) k lb ub None None), h1.
  split; [exact E|]. split; [reflexivity|].
  unfold round_trip. step E.
  assert (A : torch_tensor r h1 = (Ok (length (cells h1)), push [r] h1))
    by reflexivity.
  step A.
  unfold inverse_transform, Interval_inverse_transform,
    LessThan_inverse_transform.
  cbn [transform klass enforced _transform negb].
  unfold LessThan_transform, Interval_transform.
  cbn [enforced _transform negb].
  destruct k; reflexivity.
Qed.

Lemma unenforced_round_trip_witness :
  exists c h1,
    Interval_init GreaterThan (PyFloat (Fin 2)) (PyFloat PInf) None
      (Some inv_softplus) empty_heap = (Ok c, h1)
    /\ enforced c = false
    /\ round_trip 1
         (Interval_init GreaterThan (PyFloat (Fin 2)) (PyFloat PInf) None
            (Some inv_softplus)) (Fin 7) empty_heap
       = (Ok (length (cells h1)), push [Fin 7] h1).
Proof.
  apply (unenforced_round_trip 0 empty_heap GreaterThan (PyFloat (Fin 2))
           (PyFloat PInf) (Some inv_softplus) (Fin 7) [Fin 2] [PInf]);
    reflexivity.
Defined.

(** ** [intersect] of a constraint with itself *)

Lemma xmax_idem a : xmax a a = a.
Proof. destruct a; cbn; try reflexivity. now destruct (Rle_b r r). Qed.

Lemma xmin_idem a : xmin a a = a.
Proof. destruct a; cbn; try reflexivity. now destruct (Rle_b r r). Qed.

Lemma zip_with_same (f : xreal -> xreal -> xreal) v :
  (forall a, f a a = a) -> zip_with f v v = v.
Proof.
  intros I. induction v as [|a v IH]; cbn; [reflexivity|].
  now rewrite I, IH.
Qed.

Lemma broadcast_same (f : xreal -> xreal -> xreal) v :
  (forall a, f a a = a) -> broadcast f v v = Ok v.
Proof.
  intros I. destruct v as [|x [|x' v]]; cbn.
  - reflexivity.
  - now rewrite I.
  - rewrite Nat.eqb_refl, !I. f_equal. f_equal. f_equal.
    now apply zip_with_same.
Qed.

(** X12. [intersect] returns a constraint only when its two operands are
    the same object.  [c.intersect(c)] then returns a new constraint whose
    bounds are new tensors with the values of the bounds of [c], but which
    is always of class [Interval] with [sigmoid] and no stored inverse,
    whatever the class and the transform of [c]. *)
Theorem intersect_only_with_itself c h lv uv :
  cells h !! lower_bound c = Some lv ->
  cells h !! upper_bound c = Some uv ->
  (forall b r h', intersect c b h = (Ok r, h') -> oid b = oid c)
  /\ exists c' h',
      intersect c c h = (Ok c', h')
      /\ klass c' = Interval /\ _transform c' = Some sigmoid
      /\ _inv_transform c' = None
      /\ cells h' !! lower_bound c' = Some lv
      /\ cells h' !! upper_bound c' = Some uv
      /\ lower_bound c' <> lower_bound c /\ upper_bound c' <> upper_bound c
      /\ frame h h'.
Proof.
  intros Hl Hu. split.
  - intros b r h' E. destruct (Nat.eq_dec (oid c) (oid b)) as [Eq|Ne];
      [now symmetry|].
    rewrite (intersect_distinct_objects c b h Ne) in E. discriminate.
  - unfold intersect. rewrite bound_method_eqb_refl. cbn [negb].
    unfold torch_max, torch_min.
    step ((run_binop xmax _ _ _ _ _ _ Hl Hl (broadcast_same _ _ xmax_idem))).
    assert (U1 : cells (push lv h) !! upper_bound c = Some uv)
      by auto with heap.
    step ((run_binop xmin _ _ _ _ _ _ U1 U1 (broadcast_same _ _ xmin_idem))).
    set (h2 := push uv (push lv h)).
    assert (F2 : frame h h2).
    { eapply frame_trans; apply frame_push. }
    destruct (Interval_init_ok h2 Interval
                (PyTensor (length (cells h)))
                (PyTensor (length (cells (push lv h))))
                (Some sigmoid) inv_sigmoid lv uv)
      as (c' & h' & E & K & T & N & _ & L & U & F & _).
    + cbn [arg_value]. apply lookup_push_old, lookup_push_new.
    + cbn [arg_value]. apply lookup_push_new.
    + apply double_sided_sigmoid.
    + exists c', h'. split; [exact E|].
      assert (Hl' : cells h' !! lower_bound c = Some lv) by (apply F, F2, Hl).
      assert (Hu' : cells h' !! upper_bound c = Some uv) by (apply F, F2, Hu).
      repeat split; try assumption.
      * apply bind_inv_ok in E as (self & h0 & E0 & E).
        apply bind_inv_ok in E as (lb & h1 & E1 & E).
        apply bind_inv_ok in E as (ub & h3 & E3 & E).
        apply bind_inv_ok in E as (m_u & h4 & _ & E).
        apply bind_inv_ok in E as (ds & h5 & _ & E).
        destruct ds; [discriminate|]. injection E as <- _.
        cbn [lower_bound]. injection E1 as <- _.
        apply lookup_lt_Some in Hl. lia.
      * apply bind_inv_ok in E as (self & h0 & E0 & E).
        apply bind_inv_ok in E as (lb & h1 & E1 & E).
        apply bind_inv_ok in E as (ub & h3 & E3 & E).
        apply bind_inv_ok in E as (m_u & h4 & _ & E).
        apply bind_inv_ok in E as (ds & h5 & _ & E).
        destruct ds; [discriminate|]. injection E as <- _.
        cbn [upper_bound]. injection E3 as <- _.
        apply lookup_lt_Some in Hu. unfold push. cbn [cells].
        rewrite ?length_app. lia.
      * eapply frame_trans; [exact F2 | exact F].
Qed.

Lemma intersect_only_with_itself_witness :
  let c := mkConstraint 0 GreaterThan 0 1 (Some softplus) None in
  let h := mkHeap [[Fin 2]; [PInf]] 1 in
  exists c' h',
    intersect c c h = (Ok c', h')
    /\ klass c' = Interval /\ _transform c' = Some sigmoid
    /\ cells h' !! lower_bound c' = Some [Fin 2]
    /\ cells h' !! upper_bound c' = Some [PInf].
Proof.
  intros c h.
  destruct (intersect_only_with_itself c h [Fin 2] [PInf] eq_refl eq_refl)
    as (_ & c' & h' & E & K & T & _ & L & U & _).
  exists c', h'. repeat split; assumption.
Defined.

(** ** Tensors given to the constructor *)

Lemma cmp_scalar_inv_ok f a s h m h' :
  cmp_scalar f a s h = (Ok m, h') -> h' = h.
Proof.
  unfold cmp_scalar, bind, read, ret.
  destruct (cells h !! a); intros [= _ <-]; reflexivity.
Qed.

(** A bound given as a tensor is stored as it is: the attribute is the
    caller's tensor, and the constructor allocates no tensor. *)
Lemma Interval_init_of_tensors h k tl tu tr inv c h' :
  Interval_init k (PyTensor tl) (PyTensor tu) tr inv h = (Ok c, h') ->
  lower_bound c = tl /\ upper_bound c = tu /\ cells h' = cells h.
Proof.
  unfold Interval_init. intros H.
  apply bind_inv_ok in H as (self & h0 & E0 & H).
  injection E0 as <- <-.
  apply bind_inv_ok in H as (lb & h1 & E1 & H). injection E1 as <- <-.
  apply bind_inv_ok in H as (ub & h2 & E2 & H). injection E2 as <- <-.
  apply bind_inv_ok in H as (m_u & h3 & E3 & H).
  apply cmp_scalar_inv_ok in E3 as ->.
  apply bind_inv_ok in H as (ds & h4 & E4 & H).
  assert (h4 = mkHeap (cells h) (S (next_id h))) as ->.
  { destruct (torch_any m_u).
    - apply bind_inv_ok in E4 as (m_l & h5 & E5 & E4).
      apply cmp_scalar_inv_ok in E5 as ->. now injection E4 as _ <-.
    - now injection E4 as _ <-. }
  destruct ds; [discriminate|].
  destruct tr as [f|], inv as [g|].
  - injection H as <- <-. now repeat split.
  - apply bind_inv_ok in H as (g & h5 & E5 & H).
    injection H as <- <-.
    assert (h5 = mkHeap (cells h) (S (next_id h))) as ->.
    { unfold _get_inv_param_transform, ret, raise in E5.
      destruct f; first [discriminate E5 | now injection E5 as _ <-]. }
    now repeat split.
  - injection H as <- <-. now repeat split.
  - injection H as <- <-. now repeat split.
Qed.

(** X13. The constructor keeps a bound that is given as a tensor as the
    caller's tensor itself, without copying it; so [inverse_transform] of
    the constructed constraint overwrites the caller's tensors: every
    [+inf] of the upper bound tensor becomes 1 and every [-inf] of the
    lower bound tensor becomes 0, whatever the argument and the outcome of
    the call. *)
Theorem inverse_transform_overwrites_caller_tensors h k tl tu f inv c h1 t lv uv :
  k <> LessThan -> tl <> tu ->
  cells h !! tl = Some lv -> cells h !! tu = Some uv ->
  Interval_init k (PyTensor tl) (PyTensor tu) (Some f) inv h = (Ok c, h1) ->
  lower_bound c = tl /\ upper_bound c = tu
  /\ cells h1 = cells h
  /\ cells (snd (inverse_transform c t h1)) !! tl = Some (adjusted_lower lv)
  /\ cells (snd (inverse_transform c t h1)) !! tu = Some (adjusted_upper uv).
Proof.
  intros K Ntu Hl Hu E.
  destruct (Interval_init_of_tensors _ _ _ _ _ _ _ _ E) as (L & U & C).
  destruct (Interval_init_fields _ _ _ _ _ _ _ _ E) as (Kc & T & _).
  split; [exact L|]. split; [exact U|]. split; [exact C|].
  assert (En : enforced c = true) by (unfold enforced; now rewrite T).
  rewrite inverse_transform_Interval by congruence.
  destruct (Interval_inverse_transform c t h1) as [r h2] eqn:E2. cbn [snd].
  assert (Hl1 : cells h1 !! lower_bound c = Some lv) by (rewrite C, L; exact Hl).
  assert (Hu1 : cells h1 !! upper_bound c = Some uv) by (rewrite C, U; exact Hu).
  assert (Nlu : lower_bound c <> upper_bound c) by congruence.
  pose proof (Interval_inverse_transform_store c t h1 lv uv r h2
                En Hl1 Hu1 Nlu E2) as F.
  rewrite <- L, <- U. split.
  - apply F. eapply lookup_store_eq. eauto with heap.
  - apply F. apply lookup_store_old; [congruence|].
    eapply lookup_store_eq. exact Hu1.
Qed.

Lemma inverse_transform_overwrites_caller_tensors_witness :
  let h := mkHeap [[NInf; Fin 2]; [Fin 3; PInf]; [Fin 1; Fin 1]] 0 in
  let c := mkConstraint 0 Interval 0 1 (Some sigmoid) None in
  let h1 := mkHeap [[NInf; Fin 2]; [Fin 3; PInf]; [Fin 1; Fin 1]] 1 in
  cells (snd (inverse_transform c 2 h1)) !! 0%nat = Some [Fin 0; Fin 2]
  /\ cells (snd (inverse_transform c 2 h1)) !! 1%nat = Some [Fin 3; Fin 1].
Proof.
  intros h c h1.
  destruct (inverse_transform_overwrites_caller_tensors h Interval 0%nat 1%nat
              sigmoid (Some inv_sigmoid) c h1 2%nat
              [NInf; Fin 2] [Fin 3; PInf])
    as (_ & _ & _ & L & U); try reflexivity; try discriminate.
  split; [exact L | exact U].
Defined.

(** ** When [Interval.transform] stays within the bounds *)

Lemma sigmoid_affine_within l u e :
  l <= 0 -> 0 < u -> e <> NaN ->
  let v := xadd (xmul (xsigmoid e) (Fin u)) (Fin l) in
  xle (Fin l) v /\ xle v (Fin u).
Proof.
  intros Hl Hu N. destruct e as [| |r|]; [congruence| | |]; cbn.
  - split; nra.
  - pose proof (sigmoid_range r) as [S0 S1]. split; nra.
  - split; nra.
Qed.

(** X14. [Interval(l, u).transform] with sigmoid and finite scalar bounds
    [l <= 0 < u] returns, for a tensor without NaN, a tensor that [check]
    of the same constraint accepts. *)
Theorem Interval_transform_satisfies_check depth c raw h x l u :
  klass c <> LessThan -> _transform c = Some sigmoid ->
  cells h !! raw = Some x ->
  cells h !! lower_bound c = Some [Fin l] ->
  cells h !! upper_bound c = Some [Fin u] ->
  l <= 0 -> 0 < u ->
  Forall (fun e => e <> NaN) x ->
  exists y h1,
    transform (S depth) c raw h = (Ok y, h1)
    /\ check c y h1 = (Ok true, h1).
Proof.
  intros K T Hx Hl Hu Nl Pu Hn.
  rewrite transform_Interval by assumption.
  destruct (run_Interval_transform_sigmoid c raw h x l u T Hx Hl Hu)
    as (y & h1 & E & V & F).
  exists y, h1. split; [exact E|].
  destruct (check_scalar_bounds c y h1 _ (Fin l) (Fin u) V (F _ _ Hl) (F _ _ Hu))
    as (b & Eb & Hb).
  rewrite Eb. f_equal. f_equal. apply Hb.
  rewrite Forall_map. eapply Forall_impl; [exact Hn|].
  intros e Ne. apply (sigmoid_affine_within l u e Nl Pu Ne).
Qed.

Lemma Interval_transform_satisfies_check_witness :
  let c := mkConstraint 0 Interval 0 1 (Some sigmoid) None in
  let h := mkHeap [[Fin (-1)]; [Fin 10]; [Fin 4; NInf; PInf]] 1 in
  exists y h1, transform 1 c 2 h = (Ok y, h1) /\ check c y h1 = (Ok true, h1).
Proof.
  intros c h.
  apply (Interval_transform_satisfies_check 0 c 2%nat h
           [Fin 4; NInf; PInf] (-1) 10);
    try reflexivity; try discriminate; try lra.
  repeat constructor; discriminate.
Defined.
